(** * QueuingSystem: the bounded multi-group request queue of [main.cpp]

    A shallow embedding of the C++ program: the [RequestQueue] class (one
    array-backed binary max-heap per group behind a shared capacity
    counter), the bodies of the worker and generator loops, the request
    generator and the loops of [main] that build the devices and start
    their threads.

    Conventions of the embedding.
    - [unsigned int] values are integers in [0, 2^32); every unsigned
      operation is followed by an explicit reduction modulo 2^32 ([wrap]).
    - [int] values are integers in [-2^31, 2^31); signed overflow has no
      defined behaviour in C++ and is reported as [Undefined].
    - A [std::vector] is a list; [operator[]] and [back] outside the bounds
      have no defined behaviour and are reported as [Undefined].
    - The two sift procedures are recursive in the source; here they take
      a recursion budget and report [OutOfFuel] when it is exhausted.
    - Starting a thread can fail with [std::system_error]; how many
      threads the system lets the process hold is a parameter,
      [max_threads]. *)

From stdpp Require Import base list.
From Stdlib Require Import ZArith Lia.

Local Open Scope Z_scope.

(** ** Machine integers *)

Definition UINT_MODULUS : Z := 4294967296.
Definition INT_MIN : Z := -2147483648.
Definition INT_MAX : Z := 2147483647.

(** Reduction of an unsigned result to 32 bits. *)
Definition wrap (x : Z) : Z := x mod UINT_MODULUS.

(** The values of [unsigned int] and of [int]. *)
Definition is_uint (x : Z) : Prop := 0 <= x < UINT_MODULUS.
Definition is_int (x : Z) : Prop := INT_MIN <= x <= INT_MAX.

(** Conversion [unsigned int] to [int] (modular, two's complement). *)
Definition to_int (x : Z) : Z :=
  if decide (x <= INT_MAX) then x else x - UINT_MODULUS.

(** ** Outcomes of a computation *)

Inductive result (A : Type) : Type :=
| Done (a : A)
| Undefined
| OutOfFuel.

Arguments Done {A} a.
Arguments Undefined {A}.
Arguments OutOfFuel {A}.

#[global] Instance result_bind : MBind result := λ A B f m,
  match m with
  | Done a => f a
  | Undefined => Undefined
  | OutOfFuel => OutOfFuel
  end.

#[global] Instance result_ret : MRet result := λ A a, Done a.

(** Signed subtraction on [int]. *)
Definition int_sub (a b : Z) : result Z :=
  if decide (is_int (a - b)) then Done (a - b) else Undefined.

(** ** Program constants *)

Definition MIN_REQUEST_TYPE : Z := 1.
Definition MAX_REQUEST_TYPE : Z := 3.

(** ** Data *)

Record Device : Type := mkDevice { dev_groupId : Z; dev_id : Z }.

Record Request : Type := mkRequest { groupId : Z; type : Z }.

(** [Request::operator<] and [Request::operator>]. *)
Definition Request_lt (a b : Request) : bool := bool_decide (type a < type b).
Definition Request_gt (a b : Request) : bool := bool_decide (type a > type b).

(** ** Vectors *)

(** [v.size()]. *)
Definition vsize {A} (v : list A) : Z := Z.of_nat (length v).

(** The element at position [i], if there is one. *)
Definition vget {A} (v : list A) (i : Z) : option A :=
  if decide (0 <= i < vsize v) then v !! Z.to_nat i else None.

(** [v[i]] read: undefined outside the bounds. *)
Definition vat {A} (v : list A) (i : Z) : result A :=
  match vget v i with
  | Some x => Done x
  | None => Undefined
  end.

(** The vector [v] with [x] at position [i]; used at positions that have
    been found to exist. *)
Definition vset {A} (v : list A) (i : Z) (x : A) : list A :=
  <[Z.to_nat i := x]> v.

(** [v[i] = x]: undefined outside the bounds. *)
Definition vassign {A} (v : list A) (i : Z) (x : A) : result (list A) :=
  match vget v i with
  | Some _ => Done (vset v i x)
  | None => Undefined
  end.

(** [v.back()]. *)
Definition vback {A} (v : list A) : result A := vat v (vsize v - 1).

(** [v.pop_back()]. *)
Definition vpop_back {A} (v : list A) : result (list A) :=
  match v with
  | [] => Undefined
  | _ => Done (removelast v)
  end.

(** [std::swap(v[i], v[j])]. *)
Definition vswap {A} (v : list A) (i j : Z) : result (list A) :=
  a ← vat v i;
  b ← vat v j;
  Done (vset (vset v i b) j a).

(** ** The sift procedures *)

(** [RequestQueue::heapifyUp]. *)
Fixpoint heapifyUp (fuel : nat) (requests : list Request) (index : Z)
  : result (list Request) :=
  match fuel with
  | O => OutOfFuel
  | S fuel' =>
      if decide (index = 0) then Done requests else
      let parent := wrap (index - 1) / 2 in
      p ← vat requests parent;
      c ← vat requests index;
      if negb (Request_lt p c) then Done requests else
      requests' ← vswap requests parent index;
      heapifyUp fuel' requests' parent
  end.

(** One operand of the form [child < requests.size() && requests[child] >
    requests[large]], with its short-circuit evaluation. *)
Definition child_is_larger (requests : list Request) (child large : Z)
  : result bool :=
  if decide (child < vsize requests) then
    c ← vat requests child;
    l ← vat requests large;
    Done (Request_gt c l)
  else Done false.

(** [RequestQueue::heapifyDown]. *)
Fixpoint heapifyDown (fuel : nat) (requests : list Request) (index : Z)
  : result (list Request) :=
  match fuel with
  | O => OutOfFuel
  | S fuel' =>
      let large := index in
      let left := wrap (2 * index + 1) in
      let right := wrap (2 * index + 2) in
      b1 ← child_is_larger requests left large;
      let large := if b1 : bool then left else large in
      b2 ← child_is_larger requests right large;
      let large := if b2 : bool then right else large in
      if decide (large = index) then Done requests else
      requests' ← vswap requests index large;
      heapifyDown fuel' requests' large
  end.

(** ** The queue *)

Module RequestQueue.

Record t : Type := mk {
  capacity : Z;
  currentSize : Z;
  allRequests : list (list Request)
}.

(** [initializeQueues]: [size] empty vectors are appended in turn. *)
Fixpoint initializeQueues_loop (n : nat) (acc : list (list Request))
  : list (list Request) :=
  match n with
  | O => acc
  | S n' => initializeQueues_loop n' (acc ++ [[]])
  end.

Definition initializeQueues (size : Z) : list (list Request) :=
  initializeQueues_loop (Z.to_nat size) [].

(** The constructor. *)
Definition new (capacity numOfGroups : Z) : t :=
  mk capacity 0 (initializeQueues numOfGroups).

Definition size (q : t) : Z := currentSize q.

(** [allRequests[groupId]]: the [int] index is converted to [size_t], so
    a negative one is out of bounds as well. *)
Definition group (q : t) (groupId : Z) : result (list Request) :=
  vat (allRequests q) groupId.

Definition top (q : t) (groupId : Z) : result Request :=
  requests ← group q groupId;
  vat requests 0.

Definition isFull (q : t) : bool :=
  bool_decide (currentSize q = capacity q).

Definition isEmpty (q : t) (groupId : Z) : result bool :=
  requests ← group q groupId;
  Done (bool_decide (requests = [])).

Definition push (fuel : nat) (q : t) (request : Request) : result t :=
  let currentSize' := wrap (currentSize q + 1) in
  requests ← group q (groupId request);
  let requests := requests ++ [request] in
  requests ← heapifyUp fuel requests (wrap (vsize requests - 1));
  Done (mk (capacity q) currentSize'
           (vset (allRequests q) (groupId request) requests)).

Definition pop (fuel : nat) (q : t) (groupId : Z) : result t :=
  let currentSize' := wrap (currentSize q - 1) in
  requests ← group q groupId;
  last ← vback requests;
  requests ← vassign requests 0 last;
  requests ← vpop_back requests;
  requests ← heapifyDown fuel requests 0;
  Done (mk (capacity q) currentSize'
           (vset (allRequests q) groupId requests)).

End RequestQueue.

(** ** Device numbering in [main] *)

(** The values taken by an [unsigned int] loop counter running from 0
    up to, and excluding, [n]. *)
Definition uint_range (n : Z) : list Z := Z.of_nat <$> seq 0 (Z.to_nat n).

(** The second initialiser of [Device device(i, i * numOfDevices + q)]:
    computed in [unsigned int], then converted to the [int] field. *)
Definition device_id (numOfDevices i q : Z) : Z :=
  to_int (wrap (wrap (i * numOfDevices) + q)).

(** ** The device threads of [main] *)

(** How the two nested loops end.  Each iteration builds a [Device] and
    starts a thread for it with [devicesThreads.emplace_back]; a thread
    stays unjoined until the joins that follow the loops, so the process
    holds all the threads started so far.  The constructor of
    [std::thread] throws [std::system_error] when the thread cannot be
    started, and [main] does not catch it: the program ends there, with
    the threads held in [devicesThreads] and the device just built. *)
Inductive startup : Type :=
| Started (devicesThreads : list Device)
| system_error (devicesThreads : list Device) (device : Device).

(** [devicesThreads.emplace_back(requestProcessing, device, ...)], in a
    system that lets the process hold [max_threads] device threads.  A
    thread is written as the device it runs for. *)
Definition emplace_back (max_threads : Z) (devicesThreads : list Device)
    (device : Device) : startup :=
  if decide (vsize devicesThreads < max_threads)
  then Started (devicesThreads ++ [device])
  else system_error devicesThreads device.

(** A [for] loop whose counter takes the values [counter], left by the
    first exception. *)
Fixpoint for_loop (body : Z → list Device → startup) (counter : list Z)
    (devicesThreads : list Device) : startup :=
  match counter with
  | [] => Started devicesThreads
  | i :: counter =>
      match body i devicesThreads with
      | Started devicesThreads => for_loop body counter devicesThreads
      | system_error devicesThreads device =>
          system_error devicesThreads device
      end
  end.

(** The two nested loops of [main]. *)
Definition main_devices (max_threads numOfGroups numOfDevices : Z)
  : startup :=
  for_loop
    (λ i, for_loop
            (λ q devicesThreads,
               let device :=
                 mkDevice (to_int i) (device_id numOfDevices i q) in
               emplace_back max_threads devicesThreads device)
            (uint_range numOfDevices))
    (uint_range numOfGroups) [].


(** Two definitions for the proofs.  [device_sequence] lists the values
    [device] would take if the loops ran to their end, in order;
    [main_devices] builds a prefix of it.  [start_threads] is
    [emplace_back] over a list of devices. *)
Definition device_sequence (numOfGroups numOfDevices : Z) : list Device :=
  i ← uint_range numOfGroups;
  q ← uint_range numOfDevices;
  [mkDevice (to_int i) (device_id numOfDevices i q)].

Fixpoint start_threads (max_threads : Z) (devicesThreads : list Device)
    (devices : list Device) : startup :=
  match devices with
  | [] => Started devicesThreads
  | device :: devices =>
      match emplace_back max_threads devicesThreads device with
      | Started devicesThreads =>
          start_threads max_threads devicesThreads devices
      | system_error devicesThreads device =>
          system_error devicesThreads device
      end
  end.

(** ** The two kinds of thread *)

(** What the threads share: the queue and the flag set by the signal
    handler. *)
Record World : Type := mkWorld {
  queue : RequestQueue.t;
  threadIsfFinished : bool
}.

(** [signalHandler]: the flag is set (and every waiting thread is woken). *)
Definition signalHandler (w : World) : World := mkWorld (queue w) true.

Inductive control : Type := Break | Continue.

(** A change made to the store. *)
Inductive mutation : Type :=
| Pushed (request : Request)
| Popped (groupId : Z) (request : Request).

(** What one pass through a loop body leaves behind: whether the loop goes
    on, the shared state, and the store mutations performed, in order. *)
Record pass : Type := mkPass {
  next : control;
  after : World;
  mutations : list mutation
}.

(** The predicate a worker waits on. *)
Definition requestProcessing_ready (device : Device) (w : World) : result bool :=
  empty ← RequestQueue.isEmpty (queue w) (dev_groupId device);
  Done (negb empty || threadIsfFinished w).

(** The two statements by which a worker takes a request,
    [Request request = queue.top(groupId); queue.pop(groupId);]. *)
Definition remove_max (fuel : nat) (q : RequestQueue.t) (groupId : Z)
  : result (Request * RequestQueue.t) :=
  request ← RequestQueue.top q groupId;
  q' ← RequestQueue.pop fuel q groupId;
  Done (request, q').

(** The body of the worker loop from the return of [cv.wait] to the end of
    the critical section.  The sleep and the console output that follow
    leave the shared state alone and are not modelled. *)
Definition requestProcessing_body (fuel : nat) (device : Device) (w : World)
  : result pass :=
  if threadIsfFinished w then Done (mkPass Break w []) else
  '(request, queue') ← remove_max fuel (queue w) (dev_groupId device);
  Done (mkPass Continue (mkWorld queue' (threadIsfFinished w))
               [Popped (dev_groupId device) request]).

(** The worker thread, from its start to its exit or to the last wake-up
    listed.  Between two passes the thread holds no lock, and the other
    threads and the signal handler change the shared state: [others] lists
    these changes, one per wake-up of this thread.  A wake-up at which the
    predicate of the wait does not hold sends the thread back to waiting.
    The result tells whether the thread has left its loop, and gives the
    shared state and the mutations this thread has performed. *)
Fixpoint requestProcessing (fuel : nat) (device : Device)
    (others : list (World → World)) (w : World)
  : result (bool * World * list mutation) :=
  match others with
  | [] => Done (false, w, [])
  | change :: others' =>
      let w := change w in
      ready ← requestProcessing_ready device w;
      if negb ready then requestProcessing fuel device others' w else
      p ← requestProcessing_body fuel device w;
      match next p with
      | Break => Done (true, after p, mutations p)
      | Continue =>
          '(exited, w', ms) ← requestProcessing fuel device others' (after p);
          Done (exited, w', mutations p ++ ms)
      end
  end.

(** The predicate the generator waits on. *)
Definition generateRequest_ready (w : World) : bool :=
  negb (RequestQueue.isFull (queue w)) || threadIsfFinished w.

Section Generator.

(** The state of the random source, and one draw of a
    [std::uniform_int_distribution<>(start, end)] from it. *)
Context {rng : Type} (draw : Z → Z → rng → Z * rng).

(** [getRandomNumber]: the distribution requires [start <= end]. *)
Definition getRandomNumber (start end_ : Z) (gen : rng) : result (Z * rng) :=
  if decide (start <= end_) then Done (draw start end_ gen) else Undefined.

(** The request built by the generator,
    [Request(getRandomNumber(0, numGroups - 1),
             getRandomNumber(MIN_REQUEST_TYPE, MAX_REQUEST_TYPE))].
    The order in which the two arguments are evaluated is not fixed by
    the language; the group is drawn first here. *)
Definition new_request (numGroups : Z) (gen : rng) : result (Request * rng) :=
  last ← int_sub numGroups 1;
  '(g, gen) ← getRandomNumber 0 last gen;
  '(ty, gen) ← getRandomNumber MIN_REQUEST_TYPE MAX_REQUEST_TYPE gen;
  Done (mkRequest g ty, gen).

(** The body of the generator loop from the return of [cv.wait] to the
    end of the critical section. *)
Definition generateRequest_body (fuel : nat) (numGroups : Z) (w : World)
    (gen : rng) : result (pass * rng) :=
  if threadIsfFinished w then Done (mkPass Break w [], gen) else
  '(request, gen) ← new_request numGroups gen;
  queue' ← RequestQueue.push fuel (queue w) request;
  Done (mkPass Continue (mkWorld queue' (threadIsfFinished w))
               [Pushed request], gen).

(** The generator thread, run like the worker thread above. *)
Fixpoint generateRequest (fuel : nat) (numGroups : Z)
    (others : list (World → World)) (w : World) (gen : rng)
  : result (bool * World * list mutation * rng) :=
  match others with
  | [] => Done (false, w, [], gen)
  | change :: others' =>
      let w := change w in
      if negb (generateRequest_ready w)
      then generateRequest fuel numGroups others' w gen else
      '(p, gen) ← generateRequest_body fuel numGroups w gen;
      match next p with
      | Break => Done (true, after p, mutations p, gen)
      | Continue =>
          '(exited, w', ms, gen) ←
            generateRequest fuel numGroups others' (after p) gen;
          Done (exited, w', mutations p ++ ms, gen)
      end
  end.

End Generator.

(** ** Runs of the queue *)

Inductive op : Type :=
| Push (request : Request)
| Pop (groupId : Z).

Definition apply_op (fuel : nat) (q : RequestQueue.t) (o : op)
  : result RequestQueue.t :=
  match o with
  | Push request => RequestQueue.push fuel q request
  | Pop groupId => RequestQueue.pop fuel q groupId
  end.

(** [run fits q ops q']: the operations [ops], each one returning, lead
    from [q] to [q'], and every state an operation is applied to
    satisfies [fits]. *)
Inductive run (fits : RequestQueue.t → Prop)
  : RequestQueue.t → list op → RequestQueue.t → Prop :=
| run_nil q : run fits q [] q
| run_cons q o fuel q1 ops q2 :
    fits q →
    apply_op fuel q o = Done q1 →
    run fits q1 ops q2 →
    run fits q (o :: ops) q2.

(** No vector of the queue has more than [bound] elements. *)
Definition groups_within (bound : Z) (q : RequestQueue.t) : Prop :=
  ∀ g requests, RequestQueue.group q g = Done requests → vsize requests <= bound.

(** The states the protocol of the two loops can reach: a push only when
    the queue is not full, a pop only from a group that exists and is not
    empty. *)
Inductive reachable (capacity numOfGroups : Z) : RequestQueue.t → Prop :=
| reachable_new :
    reachable capacity numOfGroups (RequestQueue.new capacity numOfGroups)
| reachable_push fuel q request q' :
    reachable capacity numOfGroups q →
    RequestQueue.isFull q = false →
    RequestQueue.push fuel q request = Done q' →
    reachable capacity numOfGroups q'
| reachable_pop fuel q g q' :
    reachable capacity numOfGroups q →
    0 <= g < numOfGroups →
    RequestQueue.isEmpty q g = Done false →
    RequestQueue.pop fuel q g = Done q' →
    reachable capacity numOfGroups q'.

(** ** Properties of vectors *)

(** The max-heap property: an element is at least as large as each of its
    children. *)
Definition max_heap (v : list Request) : Prop :=
  ∀ i c x y, 0 <= i → c = 2 * i + 1 ∨ c = 2 * i + 2 →
    vget v i = Some x → vget v c = Some y → type y <= type x.

(** The sum of the sizes of the vectors. *)
Definition total_size (groups : list (list Request)) : Z :=
  foldr (λ v acc, vsize v + acc) 0 groups.

(** A vector of at most this many elements (2^31) can be popped without the
    sift-down meeting an index whose children overflow [unsigned int]. *)
Definition SAFE_HEAP_SIZE : Z := 2147483648.

(** The type of the element at position [i] (0 when there is none). *)
Definition ty (v : list Request) (i : Z) : Z :=
  from_option type 0 (vget v i).

(** The heap property stated from the child's side. *)
Definition heap_ordered (v : list Request) : Prop :=
  ∀ j, 0 < j < vsize v → ty v j <= ty v ((j - 1) / 2).

(** Heap order everywhere except between [k] and its parent; the children
    of [k] are already below the parent of [k]. *)
Definition ordered_but_above (v : list Request) (k : Z) : Prop :=
  (∀ j, 0 < j < vsize v → j ≠ k → ty v j <= ty v ((j - 1) / 2)) ∧
  (∀ j, 0 < j < vsize v → (j - 1) / 2 = k → 0 < k →
        ty v j <= ty v ((k - 1) / 2)).

(** Heap order everywhere except between [k] and its children; the
    children of [k] are already below the parent of [k]. *)
Definition ordered_but_below (v : list Request) (k : Z) : Prop :=
  (∀ j, 0 < j < vsize v → (j - 1) / 2 ≠ k → ty v j <= ty v ((j - 1) / 2)) ∧
  (∀ j, 0 < j < vsize v → (j - 1) / 2 = k → 0 < k →
        ty v j <= ty v ((k - 1) / 2)).

(** What holds of the counters of every state the protocol can reach. *)
Definition counters_ok (capacity numOfGroups : Z) (q : RequestQueue.t) : Prop :=
  RequestQueue.capacity q = capacity ∧
  vsize (RequestQueue.allRequests q) = numOfGroups ∧
  RequestQueue.currentSize q = total_size (RequestQueue.allRequests q) ∧
  0 <= RequestQueue.currentSize q <= capacity.

(** Every vector of the queue is heap ordered. *)
Definition groups_ordered (q : RequestQueue.t) : Prop :=
  ∀ g v, RequestQueue.group q g = Done v → heap_ordered v.

(** ** Large vectors given by a rule

    A vector too long to be written out is described by its size, a rule
    giving the element at each position, and a list of positions that have
    been overwritten since (the most recent write first).  The rule is
    piecewise constant: a list of upper bounds, each with the element
    found below it, and the element found beyond the last bound.  The
    operations below act on such descriptions as the vector operations act
    on the vectors they describe; they serve to run the sift-down on
    vectors of more than 2^31 elements. *)

#[global] Instance Request_eq_dec : EqDecision Request.
Proof. solve_decision. Defined.

#[global] Instance result_fmap : FMap result := λ A B f m,
  match m with
  | Done a => Done (f a)
  | Undefined => Undefined
  | OutOfFuel => OutOfFuel
  end.

Record svec : Type := mkSvec {
  sv_size : Z;
  sv_patch : list (Z * Request);
  sv_pieces : list (Z * Request);
  sv_rest : Request
}.

Fixpoint piece_get (pieces : list (Z * Request)) (rest : Request) (k : Z)
  : Request :=
  match pieces with
  | [] => rest
  | (bound, x) :: pieces' =>
      if decide (k < bound) then x else piece_get pieces' rest k
  end.

Definition sv_base (s : svec) (k : Z) : Request :=
  piece_get (sv_pieces s) (sv_rest s) k.

Fixpoint patch_get (patch : list (Z * Request)) (k : Z) : option Request :=
  match patch with
  | [] => None
  | (i, x) :: rest => if decide (i = k) then Some x else patch_get rest k
  end.

Definition sv_get (s : svec) (k : Z) : Request :=
  default (sv_base s k) (patch_get (sv_patch s) k).

(** The vector described. *)
Definition denote (s : svec) : list Request :=
  (λ n : nat, sv_get s (Z.of_nat n)) <$> seq 0 (Z.to_nat (sv_size s)).

Arguments denote : simpl never.

Definition sv_set (s : svec) (i : Z) (x : Request) : svec :=
  mkSvec (sv_size s) ((i, x) :: sv_patch s) (sv_pieces s) (sv_rest s).

Definition sv_at (s : svec) (i : Z) : result Request :=
  if decide (0 <= i < sv_size s) then Done (sv_get s i) else Undefined.

Definition sv_swap (s : svec) (i j : Z) : result svec :=
  a ← sv_at s i;
  b ← sv_at s j;
  Done (sv_set (sv_set s i b) j a).

Definition sv_child_is_larger (s : svec) (child large : Z) : result bool :=
  if decide (child < sv_size s) then
    c ← sv_at s child;
    l ← sv_at s large;
    Done (Request_gt c l)
  else Done false.

(** One call of [heapifyDown]: either it returns, or it calls itself on a
    new vector and index. *)
Definition sv_down_step (s : svec) (index : Z) : result (svec * Z + svec) :=
  let large := index in
  let left := wrap (2 * index + 1) in
  let right := wrap (2 * index + 2) in
  b1 ← sv_child_is_larger s left large;
  let large := if b1 : bool then left else large in
  b2 ← sv_child_is_larger s right large;
  let large := if b2 : bool then right else large in
  if decide (large = index) then Done (inr s) else
  s' ← sv_swap s index large;
  Done (inl (s', large)).

(** Up to [n] nested calls of [heapifyDown]. *)
Fixpoint sv_down_iter (n : nat) (s : svec) (index : Z)
  : result (svec * Z + svec) :=
  match n with
  | O => Done (inl (s, index))
  | S n' =>
      r ← sv_down_step s index;
      match r with
      | inl (s', index') => sv_down_iter n' s' index'
      | inr s' => Done (inr s')
      end
  end.

(** [push_back]. *)
Definition sv_push_back (s : svec) (x : Request) : svec :=
  mkSvec (sv_size s + 1) ((sv_size s, x) :: sv_patch s)
         (sv_pieces s) (sv_rest s).

(** The first three statements of [pop] on the vector: the last element
    overwrites the first and is removed. *)
Definition sv_replace_root (s : svec) : svec :=
  mkSvec (sv_size s - 1) ((0, sv_get s (sv_size s - 1)) :: sv_patch s)
         (sv_pieces s) (sv_rest s).

(** The outcome of a sift-down that returns within [n] calls. *)
Definition sv_sifted (n : nat) (s : svec) : svec :=
  match sv_down_iter n s 0 with
  | Done (inr s') => s'
  | _ => s
  end.

(** Two descriptions over the same rule with the same size that agree at
    every overwritten position. *)
Definition sv_agree (s s' : svec) : bool :=
  bool_decide (sv_size s = sv_size s') &&
  bool_decide (sv_pieces s = sv_pieces s') &&
  bool_decide (sv_rest s = sv_rest s') &&
  forallb (λ k, bool_decide (sv_get s k = sv_get s' k))
          ((sv_patch s).*1 ++ (sv_patch s').*1).

(** ** Three large vectors *)

(** The positions 2^j - 1 for j from 1 to 31: the leftmost descendants of
    the root down to the 32nd level. *)
Definition spine : list Z := (λ j : nat, 2 ^ Z.of_nat j - 1) <$> seq 1 31.

(** 2^31 requests, of type 3 along the spine and of type 1 elsewhere. *)
Definition looping : svec :=
  mkSvec 2147483648 ((λ i, (i, mkRequest 0 3)) <$> spine) [] (mkRequest 0 1).

(** Where the sift-down of [looping] from the root stands after [n] calls. *)
Definition looping_after (n : nat) : svec * Z :=
  match sv_down_iter n looping 0 with
  | Done (inl sk) => sk
  | _ => (looping, 0)
  end.

(** Requests of group 0 by position: type 3 at positions 0 to 2, type 2 up
    to position 2^31 - 1, type 1 from there on. *)
Definition crowd_pieces : list (Z * Request) :=
  [(3, mkRequest 0 3); (2147483648, mkRequest 0 2)].

Definition crowd_rule (k : Z) : Request :=
  piece_get crowd_pieces (mkRequest 0 1) k.

(** The first [n] of them. *)
Definition crowd (n : Z) : svec := mkSvec n [] crowd_pieces (mkRequest 0 1).

Definition CROWD_SIZE : Z := 2147483649.

(** The vector after [CROWD_SIZE] pushes and a pop. *)
Definition crowd_popped : svec :=
  sv_sifted 80 (sv_replace_root (crowd CROWD_SIZE)).

(** ... then a push of a request of type 2 and another pop. *)
Definition crowd_popped_twice : svec :=
  sv_sifted 80 (sv_replace_root (sv_push_back crowd_popped (mkRequest 0 2))).

(** ** Statements about runs *)

(** The group an operation works on. *)
Definition op_group (o : op) : Z :=
  match o with
  | Push request => groupId request
  | Pop groupId => groupId
  end.

(** The longest vector an operation can be applied to with every index of
    the sift that follows within the range of [unsigned int]: a push
    appends the request and sifts up from its position, a pop sifts down
    through positions whose children's indices are computed. *)
Definition op_bound (o : op) : Z :=
  match o with
  | Push _ => UINT_MODULUS - 1
  | Pop _ => SAFE_HEAP_SIZE
  end.

(** [run_within q ops q']: the operations [ops], each one returning, lead
    from [q] to [q'], and each is applied to a vector of at most
    [op_bound] elements, whatever the other vectors and the capacity. *)
Inductive run_within : RequestQueue.t → list op → RequestQueue.t → Prop :=
| run_within_nil q : run_within q [] q
| run_within_cons q o fuel v q1 ops q2 :
    RequestQueue.group q (op_group o) = Done v →
    vsize v <= op_bound o →
    apply_op fuel q o = Done q1 →
    run_within q1 ops q2 →
    run_within q (o :: ops) q2.

(** Two groups, capacity 10: the requests of type 1, 3 and 2 are pushed
    to group 0 in this order, then a worker of group 0 takes a request
    three times.  The types of the requests taken, in order. *)
Definition three_requests (fuel : nat) : result (list Z) :=
  let q := RequestQueue.new 10 2 in
  q ← RequestQueue.push fuel q (mkRequest 0 1);
  q ← RequestQueue.push fuel q (mkRequest 0 3);
  q ← RequestQueue.push fuel q (mkRequest 0 2);
  '(first, q) ← remove_max fuel q 0;
  '(second, q) ← remove_max fuel q 0;
  '(third, q) ← remove_max fuel q 0;
  Done [type first; type second; type third].

(** ** Statements about the threads *)

(** The types along the list never increase. *)
Definition non_increasing (l : list Request) : Prop :=
  ∀ (i j : nat) a b, (i < j)%nat → l !! i = Some a → l !! j = Some b →
                     type b <= type a.

(** ** Sleep times *)

Definition MIN_DEVICE_SLEEP_TIME : Z := 2000.
Definition MAX_DEVICE_SLEEP_TIME : Z := 4000.

Definition MIN_GEN_SLEEP_TIME : Z := 500.
Definition MAX_GEN_SLEEP_TIME : Z := 1500.

Inductive TimeType : Type :=
| DeviceTime
| GenTime.

Section SleepTime.

Context {rng : Type} (draw : Z → Z → rng → Z * rng).

(** [getRandomSleepTime]: the number of milliseconds to sleep. *)
Definition getRandomSleepTime (timeType : TimeType) (gen : rng)
  : result (Z * rng) :=
  match timeType with
  | DeviceTime =>
      getRandomNumber draw MIN_DEVICE_SLEEP_TIME MAX_DEVICE_SLEEP_TIME gen
  | GenTime =>
      getRandomNumber draw MIN_GEN_SLEEP_TIME MAX_GEN_SLEEP_TIME gen
  end.

End SleepTime.

(** ** Counting operations *)

(** The number of pushes less the number of pops. *)
Definition net_pushes (ops : list op) : Z :=
  foldr (λ o n, match o with Push _ => n + 1 | Pop _ => n - 1 end) 0 ops.

(** * Proofs *)

(** ** The result monad *)

Lemma bind_Done {A B} (m : result A) (f : A → result B) b :
  (m ≫= f) = Done b → ∃ a, m = Done a ∧ f a = Done b.
Proof. destruct m as [a| |]; simpl; intros H; try discriminate. eauto. Qed.

Lemma Done_inj {A} (a b : A) : Done a = Done b → a = b.
Proof. by intros [=]. Qed.

Lemma bind_not_OutOfFuel {A B} (m : result A) (f : A → result B) :
  m ≠ OutOfFuel → (∀ a, m = Done a → f a ≠ OutOfFuel) → (m ≫= f) ≠ OutOfFuel.
Proof. destruct m as [a| |]; simpl; intros H1 H2; auto. Qed.

(** ** Vectors indexed by integers *)

Section Vectors.

Context {A : Type}.
Implicit Types (v : list A) (i j : Z) (x : A).

Lemma vsize_nonneg v : 0 <= vsize v.
Proof. unfold vsize. lia. Qed.

Lemma vsize_app v w : vsize (v ++ w) = vsize v + vsize w.
Proof. unfold vsize. rewrite length_app. lia. Qed.

Lemma vsize_nil : vsize (@nil A) = 0.
Proof. reflexivity. Qed.

Lemma vsize_cons x v : vsize (x :: v) = 1 + vsize v.
Proof. unfold vsize. simpl length. lia. Qed.

Lemma vsize_vset v i x : vsize (vset v i x) = vsize v.
Proof. unfold vsize, vset. by rewrite length_insert. Qed.

Lemma vget_lookup v i :
  vget v i = if decide (0 <= i) then v !! Z.to_nat i else None.
Proof.
  unfold vget, vsize.
  destruct (decide (0 <= i < Z.of_nat (length v))), (decide (0 <= i));
    try done; try lia.
  symmetry. apply lookup_ge_None_2. lia.
Qed.

Lemma vget_Some_range v i x : vget v i = Some x → 0 <= i < vsize v.
Proof.
  rewrite ?vget_lookup. unfold vsize. destruct (decide (0 <= i)); [|done].
  intros Hl%lookup_lt_Some. lia.
Qed.

Lemma vget_in_range v i : 0 <= i < vsize v → ∃ x, vget v i = Some x.
Proof.
  rewrite ?vget_lookup. unfold vsize. intros H. rewrite decide_True by lia.
  apply lookup_lt_is_Some. lia.
Qed.

Lemma vget_out_of_range v i : ¬ (0 <= i < vsize v) → vget v i = None.
Proof.
  intros H. destruct (vget v i) as [x|] eqn:E; [|done].
  apply vget_Some_range in E. lia.
Qed.

Lemma vget_nil i : vget (@nil A) i = None.
Proof. apply vget_out_of_range. rewrite vsize_nil. lia. Qed.

Lemma vget_vset_eq v i x : 0 <= i < vsize v → vget (vset v i x) i = Some x.
Proof.
  rewrite ?vget_lookup. unfold vset, vsize. intros H. rewrite decide_True by lia.
  apply list_lookup_insert_eq. lia.
Qed.

Lemma vget_vset_ne v i j x : 0 <= i → i ≠ j → vget (vset v i x) j = vget v j.
Proof.
  rewrite ?vget_lookup. unfold vset. intros Hi Hne. destruct (decide (0 <= j)); [|done].
  apply list_lookup_insert_ne. lia.
Qed.

Lemma vget_app_l v w i : i < vsize v → vget (v ++ w) i = vget v i.
Proof.
  rewrite ?vget_lookup. unfold vsize. intros H. destruct (decide (0 <= i)); [|done].
  apply lookup_app_l. lia.
Qed.

Lemma vget_app_last v x : vget (v ++ [x]) (vsize v) = Some x.
Proof.
  rewrite ?vget_lookup. unfold vsize. rewrite decide_True by lia.
  rewrite Nat2Z.id. by rewrite list_lookup_middle.
Qed.

Lemma vsize_removelast v : v ≠ [] → vsize (removelast v) = vsize v - 1.
Proof.
  intros H. destruct (exists_last H) as (w & x & ->).
  rewrite removelast_last, vsize_app, vsize_cons, vsize_nil. lia.
Qed.

Lemma vget_removelast v i :
  i < vsize v - 1 → vget (removelast v) i = vget v i.
Proof.
  intros H. destruct (decide (v = [])) as [->|Hne]; [done|].
  destruct (exists_last Hne) as (w & x & ->).
  rewrite removelast_last. rewrite vsize_app, vsize_cons, vsize_nil in H.
  symmetry. apply vget_app_l. lia.
Qed.

Lemma vat_Done v i x : vat v i = Done x ↔ vget v i = Some x.
Proof. unfold vat. destruct (vget v i); split; congruence. Qed.

Lemma vat_in_range v i : 0 <= i < vsize v → ∃ x, vat v i = Done x.
Proof.
  intros [x H]%vget_in_range. exists x. by apply vat_Done.
Qed.

Lemma vat_not_OutOfFuel v i : vat v i ≠ OutOfFuel.
Proof. unfold vat. by destruct (vget v i). Qed.

Lemma vat_nil i : vat (@nil A) i = Undefined.
Proof. unfold vat. by rewrite vget_nil. Qed.

Lemma vswap_Done v i j w :
  vswap v i j = Done w →
  ∃ a b, vget v i = Some a ∧ vget v j = Some b ∧ w = vset (vset v i b) j a.
Proof.
  unfold vswap. intros (a & Ha & H)%bind_Done.
  apply bind_Done in H as (b & Hb & H).
  apply vat_Done in Ha, Hb. exists a, b. by inversion H.
Qed.

Lemma vswap_in_range v i j :
  0 <= i < vsize v → 0 <= j < vsize v → ∃ w, vswap v i j = Done w.
Proof.
  intros [a Ha]%vat_in_range [b Hb]%vat_in_range.
  unfold vswap. rewrite Ha, Hb. simpl. eauto.
Qed.

Lemma vswap_not_OutOfFuel v i j : vswap v i j ≠ OutOfFuel.
Proof.
  unfold vswap. apply bind_not_OutOfFuel; [apply vat_not_OutOfFuel|].
  intros a _. apply bind_not_OutOfFuel; [apply vat_not_OutOfFuel|]. done.
Qed.

Lemma vsize_vswap v i j w : vswap v i j = Done w → vsize w = vsize v.
Proof.
  intros (a & b & _ & _ & ->)%vswap_Done. by rewrite !vsize_vset.
Qed.

End Vectors.

(** ** Arithmetic *)

(** Linear arithmetic with division by constants and [wrap] unfolded. *)
Ltac zlia := unfold wrap, UINT_MODULUS in *; Z.to_euclidean_division_equations; lia.

(** ** Types of the elements *)

Lemma ty_vget v i x : vget v i = Some x → ty v i = type x.
Proof. unfold ty. by intros ->. Qed.

Lemma ty_vset_eq v i x : 0 <= i < vsize v → ty (vset v i x) i = type x.
Proof. intros H. apply ty_vget. by apply vget_vset_eq. Qed.

Lemma ty_vset_ne v i j x : 0 <= i → i ≠ j → ty (vset v i x) j = ty v j.
Proof. intros Hi Hne. unfold ty. by rewrite vget_vset_ne. Qed.

Lemma ty_swapped_l v i j a b :
  vget v i = Some a → vget v j = Some b → i ≠ j →
  ty (vset (vset v i b) j a) i = ty v j.
Proof.
  intros Ha Hb Hne. pose proof (vget_Some_range _ _ _ Ha).
  pose proof (vget_Some_range _ _ _ Hb).
  rewrite ty_vset_ne by lia. rewrite ty_vset_eq by lia.
  symmetry. by apply ty_vget.
Qed.

Lemma ty_swapped_r v i j a b :
  vget v i = Some a → vget v j = Some b →
  ty (vset (vset v i b) j a) j = ty v i.
Proof.
  intros Ha Hb. pose proof (vget_Some_range _ _ _ Ha).
  pose proof (vget_Some_range _ _ _ Hb).
  rewrite ty_vset_eq by (rewrite vsize_vset; lia).
  symmetry. by apply ty_vget.
Qed.

Lemma ty_swapped_other v i j k a b :
  vget v i = Some a → vget v j = Some b → k ≠ i → k ≠ j →
  ty (vset (vset v i b) j a) k = ty v k.
Proof.
  intros Ha Hb Hi Hj. pose proof (vget_Some_range _ _ _ Ha).
  pose proof (vget_Some_range _ _ _ Hb).
  rewrite !ty_vset_ne by lia. done.
Qed.

(** ** Sifting up *)

(** Sifting keeps the size of the vector. *)
Lemma heapifyUp_size fuel : ∀ v k v',
  heapifyUp fuel v k = Done v' → vsize v' = vsize v.
Proof.
  induction fuel as [|fuel IH]; intros v k v'; simpl; [done|].
  destruct (decide (k = 0)); [by intros [= ->]|].
  intros (p & _ & H)%bind_Done. apply bind_Done in H as (c & _ & H).
  destruct (negb (Request_lt p c)); [by inversion H|].
  apply bind_Done in H as (w & Hw & H).
  apply IH in H. apply vsize_vswap in Hw. lia.
Qed.

Lemma heapifyUp_not_OutOfFuel fuel : ∀ v k,
  is_uint k → (Z.to_nat k < fuel)%nat → heapifyUp fuel v k ≠ OutOfFuel.
Proof.
  induction fuel as [|fuel IH]; intros v k Hk Hf; [lia|]. simpl.
  destruct (decide (k = 0)); [done|].
  apply bind_not_OutOfFuel; [apply vat_not_OutOfFuel|]. intros p _.
  apply bind_not_OutOfFuel; [apply vat_not_OutOfFuel|]. intros c _.
  destruct (negb (Request_lt p c)); [done|].
  apply bind_not_OutOfFuel; [apply vswap_not_OutOfFuel|]. intros w _.
  unfold is_uint in *. apply IH; [zlia|]. zlia.
Qed.

(** Sifting up from the one position that may be out of order restores
    the heap order. *)
Lemma heapifyUp_heap fuel : ∀ v k,
  0 <= k < vsize v → vsize v <= UINT_MODULUS → (Z.to_nat k < fuel)%nat →
  ordered_but_above v k →
  ∃ v', heapifyUp fuel v k = Done v' ∧ vsize v' = vsize v ∧ heap_ordered v'.
Proof.
  induction fuel as [|fuel IH]; intros v k Hk Hn Hf [Ha Hb]; [lia|].
  simpl. destruct (decide (k = 0)) as [->|Hk0].
  { exists v. split_and!; try done. intros j Hj. apply Ha; lia. }
  assert (wrap (k - 1) = k - 1) as -> by zlia.
  set (p := (k - 1) / 2). assert (0 <= p < k) as Hp by (subst p; zlia).
  destruct (vget_in_range v p) as [xp Hxp]; [lia|].
  destruct (vget_in_range v k) as [xk Hxk]; [lia|].
  rewrite (proj2 (vat_Done _ _ _) Hxp), (proj2 (vat_Done _ _ _) Hxk). simpl.
  unfold Request_lt. case_bool_decide as Hlt; simpl.
  - unfold vswap.
    rewrite (proj2 (vat_Done _ _ _) Hxp), (proj2 (vat_Done _ _ _) Hxk). simpl.
    set (w := vset (vset v p xk) k xp).
    assert (vsize w = vsize v) as Hw by (subst w; by rewrite !vsize_vset).
    destruct (IH w p) as (v' & Hv' & Hs & Hh); [lia|lia|lia| |].
    2:{ exists v'. split_and!; [done|lia|done]. }
    assert (ty w p = ty v k) as Hwp by (by apply (ty_swapped_l v p k xp xk); [| |lia]).
    assert (ty w k = ty v p) as Hwk by (by apply (ty_swapped_r v p k xp xk)).
    assert (∀ j, j ≠ p → j ≠ k → ty w j = ty v j) as Hwo
      by (intros j ??; by apply (ty_swapped_other v p k j xp xk)).
    rewrite <- (ty_vget _ _ _ Hxp), <- (ty_vget _ _ _ Hxk) in Hlt.
    split.
    + intros j Hj Hjp. rewrite Hw in Hj.
      destruct (decide (j = k)) as [->|Hjk].
      { fold p. rewrite Hwk, Hwp. lia. }
      rewrite (Hwo j) by done.
      destruct (decide ((j - 1) / 2 = k)) as [Hpk|Hpk].
      { rewrite Hpk, Hwk. apply Hb; [lia|done|lia]. }
      destruct (decide ((j - 1) / 2 = p)) as [Hpp|Hpp].
      { rewrite Hpp, Hwp. specialize (Ha j). rewrite Hpp in Ha.
        specialize (Ha ltac:(lia) Hjk). lia. }
      rewrite Hwo by done. apply Ha; [lia|done].
    + intros j Hj Hjp Hp0. rewrite Hw in Hj.
      assert (ty w ((p - 1) / 2) = ty v ((p - 1) / 2)) as ->
        by (apply Hwo; zlia).
      assert (ty v p <= ty v ((p - 1) / 2)) by (apply Ha; lia).
      destruct (decide (j = k)) as [->|Hjk]; [rewrite Hwk; lia|].
      rewrite Hwo by (try done; zlia).
      specialize (Ha j). rewrite Hjp in Ha. specialize (Ha ltac:(lia) Hjk). lia.
  - exists v. split_and!; try done. intros j Hj.
    destruct (decide (j = k)) as [->|Hjk]; [|by apply Ha].
    fold p. rewrite (ty_vget _ _ _ Hxp), (ty_vget _ _ _ Hxk). lia.
Qed.

(** ** Sifting down *)

Lemma child_is_larger_not_OutOfFuel v c l : child_is_larger v c l ≠ OutOfFuel.
Proof.
  unfold child_is_larger. destruct (decide (c < vsize v)); [|done].
  apply bind_not_OutOfFuel; [apply vat_not_OutOfFuel|]. intros a _.
  apply bind_not_OutOfFuel; [apply vat_not_OutOfFuel|]. done.
Qed.

Lemma child_is_larger_spec v c l :
  0 <= c → 0 <= l < vsize v →
  child_is_larger v c l = Done (bool_decide (c < vsize v ∧ ty v c > ty v l)).
Proof.
  intros Hc Hl. unfold child_is_larger.
  destruct (decide (c < vsize v)) as [Hlt|Hge].
  - destruct (vget_in_range v c) as [xc Hxc]; [lia|].
    destruct (vget_in_range v l) as [xl Hxl]; [lia|].
    rewrite (proj2 (vat_Done _ _ _) Hxc), (proj2 (vat_Done _ _ _) Hxl). simpl.
    rewrite (ty_vget _ _ _ Hxc), (ty_vget _ _ _ Hxl). unfold Request_gt.
    f_equal. apply bool_decide_ext. tauto.
  - f_equal. symmetry. apply bool_decide_eq_false. tauto.
Qed.

Lemma child_is_larger_beyond v c l :
  vsize v <= c → child_is_larger v c l = Done false.
Proof. intros H. unfold child_is_larger. by rewrite decide_False by lia. Qed.

Lemma heapifyDown_size fuel : ∀ v k v',
  heapifyDown fuel v k = Done v' → vsize v' = vsize v.
Proof.
  induction fuel as [|fuel IH]; intros v k v'; simpl; [done|].
  intros (b1 & _ & H)%bind_Done. apply bind_Done in H as (b2 & _ & H).
  destruct (decide _); [by inversion H|].
  apply bind_Done in H as (w & Hw & H).
  apply IH in H. apply vsize_vswap in Hw. lia.
Qed.

(** Sifting down from the one position that may be out of order restores
    the heap order, provided the vector has fewer than 2^31 elements. *)
Lemma heapifyDown_heap fuel : ∀ v k,
  0 <= k → vsize v < SAFE_HEAP_SIZE → k < SAFE_HEAP_SIZE - 1 →
  (Z.to_nat (vsize v - k) < fuel)%nat →
  ordered_but_below v k →
  ∃ v', heapifyDown fuel v k = Done v' ∧ vsize v' = vsize v ∧ heap_ordered v'.
Proof.
  induction fuel as [|fuel IH]; intros v k Hk Hn Hks Hf [Ha Hb]; [lia|].
  unfold SAFE_HEAP_SIZE in *. simpl.
  assert (wrap (2 * k + 1) = 2 * k + 1) as -> by zlia.
  assert (wrap (2 * k + 2) = 2 * k + 2) as -> by zlia.
  destruct (decide (vsize v <= k)) as [Hout|Hin].
  { rewrite !child_is_larger_beyond by lia. simpl.
    rewrite child_is_larger_beyond by lia. simpl. rewrite decide_True by done.
    exists v. split_and!; try done. intros j Hj. apply Ha; [done|zlia]. }
  rewrite child_is_larger_spec by lia. simpl.
  set (b1 := bool_decide _).
  set (l1 := if b1 then 2 * k + 1 else k).
  assert (0 <= l1 < vsize v) as Hl1.
  { subst l1 b1. case_bool_decide; lia. }
  rewrite child_is_larger_spec by lia. simpl.
  set (b2 := bool_decide _).
  set (l2 := if b2 then 2 * k + 2 else l1).
  assert ((l2 = k ∨ l2 = 2 * k + 1 ∨ l2 = 2 * k + 2) ∧ 0 <= l2 < vsize v ∧
          (l2 ≠ k → ty v k < ty v l2) ∧
          (2 * k + 1 < vsize v → ty v (2 * k + 1) <= ty v l2) ∧
          (2 * k + 2 < vsize v → ty v (2 * k + 2) <= ty v l2))
    as (Hcase & Hl2 & Hgt & Hleft & Hright).
  { subst l2 b2 l1 b1. repeat case_bool_decide; split_and!; try lia. }
  clearbody l2. clear b1 b2 l1 Hl1.
  destruct (decide (l2 = k)) as [->|Hne].
  { exists v. split_and!; try done. intros j Hj.
    destruct (decide ((j - 1) / 2 = k)) as [Hp|Hp]; [|by apply Ha].
    rewrite Hp. assert (j = 2 * k + 1 ∨ j = 2 * k + 2) as [->| ->] by zlia.
    - apply Hleft. lia.
    - apply Hright. lia. }
  destruct (vget_in_range v k) as [xk Hxk]; [lia|].
  destruct (vget_in_range v l2) as [xl Hxl]; [lia|].
  unfold vswap.
  rewrite (proj2 (vat_Done _ _ _) Hxk), (proj2 (vat_Done _ _ _) Hxl). simpl.
  set (w := vset (vset v k xl) l2 xk).
  assert (vsize w = vsize v) as Hw by (subst w; by rewrite !vsize_vset).
  destruct (IH w l2) as (v' & Hv' & Hs & Hh); [lia|lia|lia|lia| |].
  2:{ exists v'. split_and!; [done|lia|done]. }
  assert (ty w k = ty v l2) as Hwk by (by apply (ty_swapped_l v k l2 xk xl)).
  assert (ty w l2 = ty v k) as Hwl by (by apply (ty_swapped_r v k l2 xk xl)).
  assert (∀ j, j ≠ k → j ≠ l2 → ty w j = ty v j) as Hwo
    by (intros j ??; by apply (ty_swapped_other v k l2 j xk xl)).
  specialize (Hgt Hne).
  assert ((l2 - 1) / 2 = k) as Hpl by zlia.
  split.
  - intros j Hj Hjp. rewrite Hw in Hj.
    destruct (decide (j = l2)) as [->|Hjl].
    { rewrite Hpl, Hwl, Hwk. lia. }
    destruct (decide (j = k)) as [->|Hjk].
    { rewrite Hwk. rewrite Hwo by zlia. apply Hb; [lia|done|lia]. }
    rewrite (Hwo j) by done.
    destruct (decide ((j - 1) / 2 = k)) as [Hpk|Hpk].
    { rewrite Hpk, Hwk.
      assert (j = 2 * k + 1 ∨ j = 2 * k + 2) as [->| ->] by zlia.
      - apply Hleft. lia.
      - apply Hright. lia. }
    rewrite Hwo by done. by apply Ha.
  - intros j Hj Hjp Hl0. rewrite Hw in Hj. rewrite Hpl, Hwk.
    rewrite Hwo by zlia.
    specialize (Ha j). rewrite Hjp in Ha. apply Ha; [lia|lia].
Qed.

(** ** More on vectors *)

Lemma vsize_snoc {A} (v : list A) x : vsize (v ++ [x]) = vsize v + 1.
Proof. unfold vsize. rewrite length_app. simpl. lia. Qed.

Lemma vpop_back_nonempty {A} (v : list A) :
  v ≠ [] → vpop_back v = Done (removelast v).
Proof. by destruct v. Qed.

(** ** The two forms of the heap property *)

Lemma heap_ordered_max_heap v : heap_ordered v ↔ max_heap v.
Proof.
  split.
  - intros H i c x y Hi Hc Hx Hy.
    pose proof (vget_Some_range _ _ _ Hy) as Hr.
    specialize (H c ltac:(lia)).
    assert ((c - 1) / 2 = i) as Hp by zlia.
    rewrite Hp, (ty_vget _ _ _ Hx), (ty_vget _ _ _ Hy) in H. done.
  - intros H j Hj.
    destruct (vget_in_range v j) as [y Hy]; [lia|].
    destruct (vget_in_range v ((j - 1) / 2)) as [x Hx]; [zlia|].
    rewrite (ty_vget _ _ _ Hx), (ty_vget _ _ _ Hy).
    apply (H ((j - 1) / 2) j x y); [zlia|zlia|done|done].
Qed.

Lemma heap_ordered_nil : heap_ordered [].
Proof. intros j. unfold vsize. simpl. lia. Qed.

(** The root of a heap is a maximum. *)
Lemma heap_ordered_root v j :
  heap_ordered v → 0 <= j < vsize v → ty v j <= ty v 0.
Proof.
  intros H [Hj Hlt]. assert (0 <= j) as Hj' by done. revert Hj Hlt. pattern j.
  apply Z_lt_induction; [|done]. clear j Hj'.
  intros j IH Hj Hlt. destruct (decide (j = 0)) as [->|Hne]; [lia|].
  specialize (H j ltac:(lia)).
  specialize (IH ((j - 1) / 2) ltac:(zlia) ltac:(zlia) ltac:(zlia)). lia.
Qed.

Lemma heap_root_is_max v t x :
  heap_ordered v → vget v 0 = Some t → x ∈ v → type x <= type t.
Proof.
  intros H Ht [n Hn]%list_elem_of_lookup.
  assert (vget v (Z.of_nat n) = Some x) as Hx.
  { rewrite ?vget_lookup. rewrite decide_True by lia. by rewrite Nat2Z.id. }
  pose proof (vget_Some_range _ _ _ Hx).
  pose proof (heap_ordered_root v (Z.of_nat n) H ltac:(lia)) as Hle.
  by rewrite (ty_vget _ _ _ Hx), (ty_vget _ _ _ Ht) in Hle.
Qed.

(** ** What push and pop do to a vector *)

Lemma ordered_but_above_snoc v x :
  heap_ordered v → ordered_but_above (v ++ [x]) (vsize v).
Proof.
  intros H. split.
  - intros j Hj Hne. rewrite vsize_snoc in Hj.
    unfold ty. rewrite !vget_app_l by zlia. apply H. lia.
  - intros j Hj Hp Hk. rewrite vsize_snoc in Hj. zlia.
Qed.

Lemma ordered_but_below_replace_root v x :
  heap_ordered v → ordered_but_below (removelast (vset v 0 x)) 0.
Proof.
  intros H. destruct (decide (v = [])) as [->|Hne].
  { split; intros j; unfold vsize; simpl; lia. }
  assert (vsize (removelast (vset v 0 x)) = vsize v - 1) as Hs.
  { rewrite vsize_removelast, vsize_vset; [done|].
    intros E. apply (f_equal vsize) in E. rewrite vsize_vset, vsize_nil in E.
    destruct v; [done|]. rewrite vsize_cons in E. pose proof (vsize_nonneg v). lia. }
  split; [|lia].
  intros j Hj Hp. rewrite Hs in Hj. unfold ty.
  rewrite !vget_removelast by (rewrite vsize_vset; zlia).
  rewrite !vget_vset_ne by zlia. apply H. lia.
Qed.

(** ** The queue operations, case by case *)

Import RequestQueue.

Lemma push_Done fuel q r q' :
  push fuel q r = Done q' →
  ∃ v v', group q (groupId r) = Done v ∧
          heapifyUp fuel (v ++ [r]) (wrap (vsize v)) = Done v' ∧
          q' = mk (capacity q) (wrap (currentSize q + 1))
                  (vset (allRequests q) (groupId r) v').
Proof.
  unfold push. intros (v & Hv & H)%bind_Done.
  apply bind_Done in H as (v' & Hv' & H).
  rewrite vsize_snoc in Hv'.
  replace (vsize v + 1 - 1) with (vsize v) in Hv' by lia.
  exists v, v'. by inversion H.
Qed.

Lemma pop_Done fuel q g q' :
  pop fuel q g = Done q' →
  ∃ v x v', group q g = Done v ∧ v ≠ [] ∧ vget v (vsize v - 1) = Some x ∧
            heapifyDown fuel (removelast (vset v 0 x)) 0 = Done v' ∧
            q' = mk (capacity q) (wrap (currentSize q - 1))
                    (vset (allRequests q) g v').
Proof.
  unfold pop. intros (v & Hv & H)%bind_Done.
  apply bind_Done in H as (x & Hx & H). apply vat_Done in Hx.
  apply bind_Done in H as (v1 & Hv1 & H).
  apply bind_Done in H as (v2 & Hv2 & H).
  apply bind_Done in H as (v' & Hv' & H).
  assert (v ≠ []) as Hne by (intros ->; by rewrite vget_nil in Hx).
  unfold vassign in Hv1. destruct (vget v 0); [|done]. inversion Hv1; subst v1.
  unfold vpop_back in Hv2.
  destruct (vset v 0 x) eqn:E; [done|]. rewrite <- E in *.
  inversion Hv2; subst v2.
  exists v, x, v'. by inversion H.
Qed.

Lemma push_intro fuel q r v v' :
  group q (groupId r) = Done v →
  heapifyUp fuel (v ++ [r]) (wrap (vsize v)) = Done v' →
  push fuel q r = Done (mk (capacity q) (wrap (currentSize q + 1))
                           (vset (allRequests q) (groupId r) v')).
Proof.
  intros Hv Hv'. unfold push. rewrite Hv. simpl.
  rewrite vsize_snoc.
  replace (vsize v + 1 - 1) with (vsize v) by lia.
  by rewrite Hv'.
Qed.

Lemma pop_intro fuel q g v x v' :
  group q g = Done v → vget v (vsize v - 1) = Some x →
  heapifyDown fuel (removelast (vset v 0 x)) 0 = Done v' →
  pop fuel q g = Done (mk (capacity q) (wrap (currentSize q - 1))
                          (vset (allRequests q) g v')).
Proof.
  intros Hv Hx Hv'. unfold pop. rewrite Hv. simpl.
  unfold vback. rewrite (proj2 (vat_Done _ _ _) Hx). simpl.
  pose proof (vget_Some_range _ _ _ Hx) as Hr.
  destruct (vget_in_range v 0) as [x0 Hx0]; [lia|].
  unfold vassign. rewrite Hx0. simpl.
  rewrite vpop_back_nonempty; [simpl; by rewrite Hv'|].
  intros E. apply (f_equal vsize) in E. rewrite vsize_vset in E.
  unfold vsize in E at 2. simpl in E. lia.
Qed.


(** ** More fuel changes nothing *)

Lemma heapifyUp_fuel fuel : ∀ fuel' v k v',
  heapifyUp fuel v k = Done v' → (fuel <= fuel')%nat →
  heapifyUp fuel' v k = Done v'.
Proof.
  induction fuel as [|fuel IH]; intros [|fuel'] v k v' H Hle;
    try done; try lia. simpl in *.
  destruct (decide (k = 0)); [done|].
  destruct (vat v (wrap (k - 1) / 2)) as [p| |]; simpl in *; try done.
  destruct (vat v k) as [c| |]; simpl in *; try done.
  destruct (negb _); [done|].
  destruct (vswap _ _ _) as [w| |]; simpl in *; try done.
  apply (IH fuel'); [done|lia].
Qed.

Lemma heapifyDown_fuel fuel : ∀ fuel' v k v',
  heapifyDown fuel v k = Done v' → (fuel <= fuel')%nat →
  heapifyDown fuel' v k = Done v'.
Proof.
  induction fuel as [|fuel IH]; intros [|fuel'] v k v' H Hle;
    try done; try lia. simpl in *.
  destruct (child_is_larger v (wrap (2 * k + 1)) k) as [b1| |];
    simpl in *; try done.
  destruct (child_is_larger v (wrap (2 * k + 2)) _) as [b2| |];
    simpl in *; try done.
  destruct (decide _); [done|].
  destruct (vswap _ _ _) as [w| |]; simpl in *; try done.
  apply (IH fuel'); [done|lia].
Qed.

Lemma heapifyUp_Done_heap fuel v k v' :
  0 <= k < vsize v → vsize v <= UINT_MODULUS → ordered_but_above v k →
  heapifyUp fuel v k = Done v' → heap_ordered v'.
Proof.
  intros Hk Hn Hinv H.
  destruct (heapifyUp_heap (fuel + S (Z.to_nat k)) v k)
    as (v'' & H' & _ & Hh); [done|done|lia|done|].
  apply (heapifyUp_fuel _ (fuel + S (Z.to_nat k))) in H; [|lia].
  rewrite H' in H. by inversion H; subst.
Qed.

Lemma heapifyDown_Done_heap fuel v k v' :
  0 <= k → vsize v < SAFE_HEAP_SIZE → k < SAFE_HEAP_SIZE - 1 →
  ordered_but_below v k →
  heapifyDown fuel v k = Done v' → heap_ordered v'.
Proof.
  intros Hk Hn Hks Hinv H.
  destruct (heapifyDown_heap (fuel + S (Z.to_nat (vsize v - k))) v k)
    as (v'' & H' & _ & Hh); [done|done|done|lia|done|].
  apply (heapifyDown_fuel _ (fuel + S (Z.to_nat (vsize v - k)))) in H; [|lia].
  rewrite H' in H. by inversion H; subst.
Qed.

(** ** Groups of the queue *)

Lemma group_Done q g v : group q g = Done v ↔ vget (allRequests q) g = Some v.
Proof. apply vat_Done. Qed.

Lemma group_vset_eq c s gs g v v' :
  vget gs g = Some v → group (mk c s (vset gs g v')) g = Done v'.
Proof.
  intros H%vget_Some_range. apply group_Done. simpl. by apply vget_vset_eq.
Qed.

Lemma group_vset_ne c s gs g g' v v' :
  vget gs g = Some v → g ≠ g' →
  group (mk c s (vset gs g v')) g' = group (mk c s gs) g'.
Proof.
  intros H%vget_Some_range Hne. unfold group, vat. simpl.
  rewrite vget_vset_ne; [done|lia|done].
Qed.

Lemma total_size_insert gs : ∀ (n : nat) v v',
  gs !! n = Some v →
  total_size (<[n:=v']> gs) = total_size gs - vsize v + vsize v'.
Proof.
  induction gs as [|w gs IH]; intros [|n] v v' H; simpl in *; try done.
  - inversion H; subst. lia.
  - rewrite (IH n v v' H). lia.
Qed.

(** Replacing the vector of one group changes the total by the difference
    of the sizes. *)
Lemma total_size_vset gs g v v' :
  vget gs g = Some v →
  total_size (vset gs g v') = total_size gs - vsize v + vsize v'.
Proof.
  rewrite ?vget_lookup. unfold vset. destruct (decide (0 <= g)); [|done].
  apply total_size_insert.
Qed.

Lemma total_size_lookup gs : ∀ (n : nat) v,
  gs !! n = Some v → 0 <= vsize v <= total_size gs.
Proof.
  induction gs as [|w gs IH]; intros [|n] v H; simpl in *; try done.
  - inversion H; subst. clear IH.
    assert (0 <= total_size gs); [|pose proof (vsize_nonneg v); lia].
    induction gs as [|u gs IH]; simpl; [lia|]. pose proof (vsize_nonneg u). lia.
  - specialize (IH n v H). pose proof (vsize_nonneg w). lia.
Qed.

Lemma total_size_vget gs g v :
  vget gs g = Some v → 0 <= vsize v <= total_size gs.
Proof.
  rewrite ?vget_lookup. destruct (decide (0 <= g)); [|done]. apply total_size_lookup.
Qed.

Lemma initializeQueues_loop_spec n : ∀ acc,
  initializeQueues_loop n acc = acc ++ replicate n [].
Proof.
  induction n as [|n IH]; intros acc; simpl; [by rewrite app_nil_r|].
  by rewrite IH, <- app_assoc.
Qed.

Lemma initializeQueues_spec n :
  initializeQueues n = replicate (Z.to_nat n) [].
Proof. unfold initializeQueues. by rewrite initializeQueues_loop_spec. Qed.

Lemma vget_initializeQueues n g v :
  vget (initializeQueues n) g = Some v → v = [].
Proof.
  rewrite initializeQueues_spec. rewrite ?vget_lookup.
  destruct (decide (0 <= g)); [|done].
  by intros [-> _]%lookup_replicate.
Qed.

Lemma vsize_initializeQueues n : 0 <= n → vsize (initializeQueues n) = n.
Proof.
  intros H. rewrite initializeQueues_spec. unfold vsize.
  rewrite length_replicate. lia.
Qed.

Lemma total_size_initializeQueues n : total_size (initializeQueues n) = 0.
Proof.
  rewrite initializeQueues_spec.
  induction (Z.to_nat n) as [|k IH]; simpl; [done|]. rewrite IH. done.
Qed.

(** ** The counters along the runs of the protocol *)

Lemma counters_ok_new capacity numOfGroups :
  is_uint capacity → is_uint numOfGroups →
  counters_ok capacity numOfGroups (new capacity numOfGroups).
Proof.
  intros Hc Hn. unfold counters_ok, new, is_uint in *. simpl.
  rewrite vsize_initializeQueues, total_size_initializeQueues by lia. lia.
Qed.

Lemma counters_ok_push capacity numOfGroups fuel q r q' :
  is_uint capacity → counters_ok capacity numOfGroups q →
  isFull q = false → push fuel q r = Done q' →
  counters_ok capacity numOfGroups q'.
Proof.
  intros Hc (Hcap & Hng & Hsum & Hrange) Hfull (v & v' & Hv & Hv' & ->)%push_Done.
  apply group_Done in Hv. apply heapifyUp_size in Hv'.
  rewrite vsize_snoc in Hv'.
  unfold isFull in Hfull. apply bool_decide_eq_false in Hfull.
  unfold counters_ok, is_uint in *. simpl.
  rewrite vsize_vset, (total_size_vset _ _ v) by done.
  assert (wrap (currentSize q + 1) = currentSize q + 1) as -> by zlia.
  lia.
Qed.

Lemma counters_ok_pop capacity numOfGroups fuel q g q' :
  is_uint capacity → counters_ok capacity numOfGroups q →
  pop fuel q g = Done q' →
  counters_ok capacity numOfGroups q'.
Proof.
  intros Hc (Hcap & Hng & Hsum & Hrange)
    (v & x & v' & Hv & Hne & Hx & Hv' & ->)%pop_Done.
  apply group_Done in Hv. apply heapifyDown_size in Hv'.
  rewrite vsize_removelast, vsize_vset in Hv'.
  2:{ intros E. apply (f_equal vsize) in E. rewrite vsize_vset in E.
      apply vget_Some_range in Hx. unfold vsize in E at 2. simpl in E. lia. }
  apply vget_Some_range in Hx.
  pose proof (total_size_vget _ _ _ Hv) as Hle.
  unfold counters_ok, is_uint in *. simpl.
  rewrite vsize_vset, (total_size_vset _ _ v) by done.
  assert (wrap (currentSize q - 1) = currentSize q - 1) as -> by zlia.
  lia.
Qed.

Lemma reachable_counters_ok capacity numOfGroups q :
  is_uint capacity → is_uint numOfGroups →
  reachable capacity numOfGroups q → counters_ok capacity numOfGroups q.
Proof.
  intros Hc Hn. induction 1 as [|fuel q r q' _ IH Hfull Hpush
                                |fuel q g q' _ IH _ _ Hpop].
  - by apply counters_ok_new.
  - by apply (counters_ok_push _ _ fuel q r).
  - by apply (counters_ok_pop _ _ fuel q g).
Qed.

(** ** Heap order along the runs *)

Lemma groups_ordered_new capacity numOfGroups :
  groups_ordered (new capacity numOfGroups).
Proof.
  intros g v Hv%group_Done. simpl in Hv.
  apply vget_initializeQueues in Hv as ->. apply heap_ordered_nil.
Qed.

Lemma groups_ordered_push_at fuel q r q' v :
  groups_ordered q → group q (groupId r) = Done v → vsize v < UINT_MODULUS →
  push fuel q r = Done q' → groups_ordered q'.
Proof.
  intros Hord Hv Hsize (v0 & v' & Hv0 & Hv' & ->)%push_Done g w Hw.
  rewrite Hv in Hv0. apply Done_inj in Hv0. subst v0.
  pose proof (vsize_nonneg v).
  pose proof Hv as Hv2. apply group_Done in Hv2.
  destruct (decide (groupId r = g)) as [Heq|Hne]; [subst g|].
  - rewrite (group_vset_eq _ _ _ _ v) in Hw by done. inversion Hw; subst w.
    assert (wrap (vsize v) = vsize v) as Hwrap by zlia. rewrite Hwrap in Hv'.
    apply (heapifyUp_Done_heap fuel (v ++ [r]) (vsize v)); try done.
    + rewrite vsize_snoc. lia.
    + rewrite vsize_snoc. unfold UINT_MODULUS in *. lia.
    + apply ordered_but_above_snoc. by apply (Hord (groupId r)).
  - rewrite (group_vset_ne _ _ _ _ _ v) in Hw by done.
    apply (Hord g). by destruct q.
Qed.

Lemma groups_ordered_push fuel q r q' :
  groups_ordered q → groups_within (UINT_MODULUS - 1) q →
  push fuel q r = Done q' → groups_ordered q'.
Proof.
  intros Hord Hwithin Hpush.
  destruct (push_Done _ _ _ _ Hpush) as (v & _ & Hv & _).
  apply (groups_ordered_push_at fuel q r q' v); try done.
  specialize (Hwithin _ _ Hv). lia.
Qed.

Lemma groups_ordered_pop_at fuel q g q' v :
  groups_ordered q → group q g = Done v → vsize v <= SAFE_HEAP_SIZE →
  pop fuel q g = Done q' → groups_ordered q'.
Proof.
  intros Hord Hv Hsize (v0 & x & v' & Hv0 & Hne & Hx & Hv' & ->)%pop_Done g' w Hw.
  rewrite Hv in Hv0. apply Done_inj in Hv0. subst v0.
  pose proof Hv as Hv2. apply group_Done in Hv2.
  pose proof (vget_Some_range _ _ _ Hx) as Hr.
  destruct (decide (g = g')) as [<-|Hneq].
  - rewrite (group_vset_eq _ _ _ _ v) in Hw by done. inversion Hw; subst w.
    apply (heapifyDown_Done_heap fuel (removelast (vset v 0 x)) 0);
      try done; unfold SAFE_HEAP_SIZE in *; try lia.
    + rewrite vsize_removelast, vsize_vset; [lia|].
      intros E. apply (f_equal vsize) in E. rewrite vsize_vset in E.
      unfold vsize in E at 2. simpl in E. lia.
    + apply ordered_but_below_replace_root. by apply (Hord g).
  - rewrite (group_vset_ne _ _ _ _ _ v) in Hw by done.
    apply (Hord g'). by destruct q.
Qed.

Lemma groups_ordered_pop fuel q g q' :
  groups_ordered q → groups_within SAFE_HEAP_SIZE q →
  pop fuel q g = Done q' → groups_ordered q'.
Proof.
  intros Hord Hwithin Hpop.
  destruct (pop_Done _ _ _ _ Hpop) as (v & _ & _ & Hv & _).
  apply (groups_ordered_pop_at fuel q g q' v); try done.
  exact (Hwithin _ _ Hv).
Qed.

Lemma counters_ok_groups_within capacity numOfGroups q :
  counters_ok capacity numOfGroups q → groups_within capacity q.
Proof.
  intros (_ & _ & Hsum & Hrange) g v Hv%group_Done.
  apply total_size_vget in Hv. lia.
Qed.

Lemma reachable_groups_ordered capacity numOfGroups q :
  is_uint capacity → is_uint numOfGroups → capacity <= SAFE_HEAP_SIZE →
  reachable capacity numOfGroups q → groups_ordered q.
Proof.
  intros Hc Hn Hsafe. induction 1 as [|fuel q r q' Hq IH Hfull Hpush
                                      |fuel q g q' Hq IH _ _ Hpop].
  - apply groups_ordered_new.
  - apply (groups_ordered_push fuel q r); try done.
    apply reachable_counters_ok, counters_ok_groups_within in Hq; try done.
    intros g v Hv. specialize (Hq g v Hv).
    unfold SAFE_HEAP_SIZE, UINT_MODULUS in *. lia.
  - apply (groups_ordered_pop fuel q g); try done.
    apply reachable_counters_ok, counters_ok_groups_within in Hq; try done.
    intros g' v Hv. specialize (Hq g' v Hv). lia.
Qed.

Lemma run_within_groups_ordered q ops q' :
  run_within q ops q' → groups_ordered q → groups_ordered q'.
Proof.
  induction 1 as [|q o fuel v q1 ops q2 Hv Hsize Hop _ IH]; [done|].
  intros Hord. apply IH. destruct o as [r|g]; simpl in *.
  - apply (groups_ordered_push_at fuel q r q1 v); try done. lia.
  - by apply (groups_ordered_pop_at fuel q g q1 v).
Qed.

(** ** Vectors given by a rule *)

Lemma vsize_denote s : 0 <= sv_size s → vsize (denote s) = sv_size s.
Proof.
  intros H. unfold vsize, denote. rewrite length_fmap, length_seq. lia.
Qed.

Lemma vget_denote s k :
  0 <= k < sv_size s → vget (denote s) k = Some (sv_get s k).
Proof.
  intros H. rewrite ?vget_lookup. unfold denote. rewrite decide_True by lia.
  rewrite list_lookup_fmap, lookup_seq_lt by lia. simpl.
  by rewrite Z2Nat.id by lia.
Qed.

Lemma vat_denote s k : vat (denote s) k = sv_at s k.
Proof.
  unfold vat, sv_at. destruct (decide (0 <= k < sv_size s)) as [H|H].
  - by rewrite vget_denote.
  - rewrite vget_out_of_range; [done|].
    destruct (decide (0 <= sv_size s)) as [Hs|Hs].
    + by rewrite vsize_denote.
    + unfold vsize, denote. rewrite length_fmap, length_seq. lia.
Qed.

Lemma sv_get_set_eq s i x : sv_get (sv_set s i x) i = x.
Proof. unfold sv_get. simpl. by rewrite decide_True. Qed.

Lemma sv_get_set_ne s i j x : i ≠ j → sv_get (sv_set s i x) j = sv_get s j.
Proof. intros H. unfold sv_get. simpl. by rewrite decide_False. Qed.

Lemma denote_ext s s' :
  sv_size s = sv_size s' →
  (∀ k, 0 <= k < sv_size s → sv_get s k = sv_get s' k) →
  denote s = denote s'.
Proof.
  intros Hs Hget. unfold denote. rewrite <- Hs.
  apply list_eq. intros n. rewrite !list_lookup_fmap.
  destruct (seq 0 (Z.to_nat (sv_size s)) !! n) as [m|] eqn:E; [|done].
  apply lookup_seq in E as [-> Hlt]. simpl. f_equal. apply Hget. lia.
Qed.

Lemma vset_denote s i x :
  0 <= i < sv_size s → vset (denote s) i x = denote (sv_set s i x).
Proof.
  intros H. apply list_eq. intros n. unfold vset.
  destruct (decide (n = Z.to_nat i)) as [->|Hne].
  - rewrite list_lookup_insert_eq.
    2:{ pose proof (vsize_denote s ltac:(lia)) as E. unfold vsize in E. lia. }
    pose proof (vget_denote (sv_set s i x) i H) as E.
    rewrite ?vget_lookup in E. rewrite decide_True in E by lia.
    by rewrite E, sv_get_set_eq.
  - rewrite list_lookup_insert_ne by done.
    unfold denote. simpl. rewrite !list_lookup_fmap.
    destruct (seq 0 (Z.to_nat (sv_size s)) !! n) as [m|] eqn:E; [|done].
    apply lookup_seq in E as [-> Hlt]. simpl. f_equal.
    symmetry. apply sv_get_set_ne. lia.
Qed.

Lemma vswap_denote s i j : vswap (denote s) i j = denote <$> sv_swap s i j.
Proof.
  unfold vswap, sv_swap. rewrite !vat_denote. unfold sv_at.
  destruct (decide (0 <= i < sv_size s)); [|done]. simpl.
  destruct (decide (0 <= j < sv_size s)); [|done]. simpl.
  do 2 f_equal. rewrite vset_denote by done. by rewrite vset_denote.
Qed.

Lemma child_is_larger_denote s c l :
  0 <= sv_size s →
  child_is_larger (denote s) c l = sv_child_is_larger s c l.
Proof.
  intros H. unfold child_is_larger, sv_child_is_larger.
  by rewrite vsize_denote, !vat_denote.
Qed.

Lemma sv_size_swap s i j s' : sv_swap s i j = Done s' → sv_size s' = sv_size s.
Proof.
  unfold sv_swap. intros (a & _ & H)%bind_Done.
  apply bind_Done in H as (b & _ & H). by inversion H.
Qed.

Lemma sv_size_down_step s k s' k' :
  sv_down_step s k = Done (inl (s', k')) → sv_size s' = sv_size s.
Proof.
  unfold sv_down_step. intros (b1 & _ & H)%bind_Done.
  apply bind_Done in H as (b2 & _ & H).
  destruct (decide _); [done|].
  apply bind_Done in H as (s'' & Hs & H). inversion H; subst.
  by apply sv_size_swap in Hs.
Qed.

(** One call of [heapifyDown] on the vector described. *)
Lemma heapifyDown_denote fuel s k :
  0 <= sv_size s →
  heapifyDown (S fuel) (denote s) k =
  match sv_down_step s k with
  | Done (inl (s', k')) => heapifyDown fuel (denote s') k'
  | Done (inr s') => Done (denote s')
  | Undefined => Undefined
  | OutOfFuel => OutOfFuel
  end.
Proof.
  intros H. simpl. unfold sv_down_step.
  rewrite child_is_larger_denote by done.
  destruct (sv_child_is_larger s (wrap (2 * k + 1)) k) as [b1| |];
    simpl; try done.
  rewrite child_is_larger_denote by done.
  destruct (sv_child_is_larger s (wrap (2 * k + 2)) _) as [b2| |];
    simpl; try done.
  destruct (decide _); [done|].
  rewrite vswap_denote. by destruct (sv_swap _ _ _) as [s'| |].
Qed.

(** A sift-down still running after [n] calls needs more than [n] calls. *)
Lemma heapifyDown_denote_running n : ∀ s k s' k' fuel,
  0 <= sv_size s →
  sv_down_iter n s k = Done (inl (s', k')) →
  0 <= sv_size s' ∧
  heapifyDown fuel (denote s) k =
    if decide (fuel <= n)%nat then OutOfFuel
    else heapifyDown (fuel - n) (denote s') k'.
Proof.
  induction n as [|n IH]; intros s k s' k' fuel Hs H; simpl in H.
  - inversion H; subst. split; [done|].
    destruct fuel; [done|]. rewrite decide_False by lia.
    by rewrite Nat.sub_0_r.
  - apply bind_Done in H as ([[s1 k1]|s1] & Hstep & H); [|done].
    pose proof (sv_size_down_step _ _ _ _ Hstep) as Hs1.
    destruct (IH s1 k1 s' k' (fuel - 1)%nat ltac:(lia) H) as [Hs' Hrun].
    split; [done|]. destruct fuel as [|fuel]; [done|].
    rewrite heapifyDown_denote, Hstep by done.
    replace (S fuel - 1)%nat with fuel in Hrun by lia. rewrite Hrun.
    destruct (decide (fuel <= n)%nat), (decide (S fuel <= S n)%nat);
      try lia; done.
Qed.

(** A sift-down that returns within [n] calls. *)
Lemma heapifyDown_denote_returns n : ∀ s k s' fuel,
  0 <= sv_size s →
  sv_down_iter n s k = Done (inr s') →
  (n <= fuel)%nat →
  heapifyDown fuel (denote s) k = Done (denote s').
Proof.
  induction n as [|n IH]; intros s k s' fuel Hs H Hle; simpl in H; [done|].
  apply bind_Done in H as ([[s1 k1]|s1] & Hstep & H).
  - pose proof (sv_size_down_step _ _ _ _ Hstep) as Hs1.
    destruct fuel as [|fuel]; [lia|].
    rewrite heapifyDown_denote, Hstep by done.
    apply IH; [lia|done|lia].
  - inversion H; subst. destruct fuel as [|fuel]; [lia|].
    by rewrite heapifyDown_denote, Hstep by done.
Qed.

Lemma patch_get_not_in patch k : k ∉ patch.*1 → patch_get patch k = None.
Proof.
  induction patch as [|[i x] patch IH]; simpl; [done|].
  intros [Hne Hrest]%not_elem_of_cons. rewrite decide_False by done.
  by apply IH.
Qed.

Lemma denote_agree s s' : sv_agree s s' = true → denote s = denote s'.
Proof.
  unfold sv_agree. intros [Hs Hk]%andb_true_iff.
  apply andb_true_iff in Hs as [Hs Hr]. apply andb_true_iff in Hs as [Hs Hp].
  apply bool_decide_eq_true in Hs, Hp, Hr. rewrite forallb_forall in Hk.
  apply denote_ext; [done|]. intros k _.
  destruct (decide (k ∈ (sv_patch s).*1 ++ (sv_patch s').*1)) as [Hin|Hout].
  - apply list_elem_of_In, Hk, bool_decide_eq_true in Hin. done.
  - apply not_elem_of_app in Hout as [Hs1 Hs2].
    unfold sv_get. rewrite !patch_get_not_in by done. simpl.
    unfold sv_base. by rewrite Hp, Hr.
Qed.

Lemma denote_push_back s x :
  0 <= sv_size s → denote s ++ [x] = denote (sv_push_back s x).
Proof.
  intros H. unfold denote at 2. simpl.
  replace (Z.to_nat (sv_size s + 1)) with (S (Z.to_nat (sv_size s))) by lia.
  rewrite seq_S, fmap_app. simpl. f_equal.
  - unfold denote. apply list_eq. intros n. rewrite !list_lookup_fmap.
    destruct (seq 0 (Z.to_nat (sv_size s)) !! n) as [m|] eqn:E; [|done].
    apply lookup_seq in E as [-> Hlt]. simpl. f_equal.
    unfold sv_get. simpl. by rewrite decide_False by lia.
  - f_equal. unfold sv_get. simpl. by rewrite decide_True by lia.
Qed.

Lemma denote_replace_root s :
  1 <= sv_size s →
  removelast (vset (denote s) 0 (sv_get s (sv_size s - 1)))
  = denote (sv_replace_root s).
Proof.
  intros H. rewrite vset_denote by lia.
  set (s1 := sv_set s 0 _).
  assert (denote s1 =
          denote (sv_replace_root s) ++ [sv_get s1 (sv_size s - 1)]) as ->.
  { unfold denote at 1. simpl.
    replace (Z.to_nat (sv_size s)) with (S (Z.to_nat (sv_size s - 1))) by lia.
    rewrite seq_S, fmap_app. simpl. f_equal.
    f_equal. f_equal. lia. }
  by rewrite removelast_last.
Qed.

(** ** A sift-down that never returns *)

Lemma looping_32 : sv_down_iter 32 looping 0 = Done (inl (looping_after 32)).
Proof. vm_compute. reflexivity. Qed.

Lemma looping_32_again :
  (looping_after 32).2 = 0 ∧ sv_agree (looping_after 32).1 looping = true.
Proof. vm_compute. done. Qed.

Lemma heapifyDown_looping fuel :
  heapifyDown fuel (denote looping) 0 = OutOfFuel.
Proof.
  induction (lt_wf fuel) as [fuel _ IH].
  pose proof looping_32 as H32.
  destruct looping_32_again as (Hk & Ha).
  destruct (looping_after 32) as [s' k']. simpl in Hk, Ha. subst k'.
  apply (heapifyDown_denote_running _ _ _ _ _ fuel) in H32 as [_ ->];
    [|by vm_compute].
  destruct (decide (fuel <= 32)%nat); [done|].
  rewrite (denote_agree s' looping) by done. apply IH. lia.
Qed.

(** ** Pushes and pops on vectors given by a rule *)

Lemma denote_nonempty s : 1 <= sv_size s → denote s ≠ [].
Proof.
  intros H E. apply (f_equal vsize) in E. rewrite vsize_denote in E by lia.
  unfold vsize in E. simpl in E. lia.
Qed.

Lemma pop_denote fuel n capacity currentSize s s' :
  1 <= sv_size s →
  sv_down_iter n (sv_replace_root s) 0 = Done (inr s') → (n <= fuel)%nat →
  pop fuel (mk capacity currentSize [denote s]) 0
  = Done (mk capacity (wrap (currentSize - 1)) [denote s']).
Proof.
  intros Hs Hiter Hle.
  rewrite (pop_intro fuel _ 0 (denote s) (sv_get s (sv_size s - 1)) (denote s')).
  - done.
  - done.
  - rewrite vsize_denote by lia. apply vget_denote. lia.
  - rewrite denote_replace_root by done.
    apply (heapifyDown_denote_returns n); [simpl; lia|done|done].
Qed.

Lemma push_no_swap capacity currentSize v r :
  groupId r = 0 → vsize v < UINT_MODULUS →
  (v ≠ [] → ∃ p, vget v ((vsize v - 1) / 2) = Some p ∧ ¬ type p < type r) →
  push 1 (mk capacity currentSize [v]) r
  = Done (mk capacity (wrap (currentSize + 1)) [v ++ [r]]).
Proof.
  intros Hg Hsize Hparent. pose proof (vsize_nonneg v) as Hpos.
  rewrite (push_intro 1 _ r v (v ++ [r])); simpl; rewrite ?Hg; try done.
  assert (wrap (vsize v) = vsize v) as -> by zlia.
  destruct (decide (vsize v = 0)) as [|Hne]; [done|].
  destruct Hparent as (p & Hp & Hle).
  { intros ->. by apply Hne. }
  assert (wrap (vsize v - 1) = vsize v - 1) as -> by zlia.
  pose proof (vget_Some_range _ _ _ Hp) as Hr.
  unfold vat. rewrite (vget_app_l v [r] ((vsize v - 1) / 2)), Hp by lia. simpl.
  rewrite vget_app_last. simpl.
  unfold Request_lt. by rewrite bool_decide_eq_false_2.
Qed.

Lemma push_denote capacity currentSize s r :
  1 <= sv_size s < UINT_MODULUS → groupId r = 0 →
  Request_lt (sv_get s ((sv_size s - 1) / 2)) r = false →
  push 1 (mk capacity currentSize [denote s]) r
  = Done (mk capacity (wrap (currentSize + 1)) [denote (sv_push_back s r)]).
Proof.
  intros Hs Hg Hlt. rewrite <- denote_push_back by lia.
  apply push_no_swap; [done|rewrite vsize_denote; lia|].
  intros _. exists (sv_get s ((sv_size s - 1) / 2)). rewrite vsize_denote by lia.
  split; [apply vget_denote; zlia|].
  unfold Request_lt in Hlt. by apply bool_decide_eq_false in Hlt.
Qed.

Lemma denote_crowd_S (n : nat) :
  denote (crowd (Z.of_nat (S n)))
  = denote (crowd (Z.of_nat n)) ++ [crowd_rule (Z.of_nat n)].
Proof.
  rewrite denote_push_back by (simpl; lia). apply denote_ext; simpl; [lia|].
  intros k Hk. unfold sv_get. simpl.
  destruct (decide (Z.of_nat n = k)) as [->|]; done.
Qed.

Lemma crowd_rule_parent k :
  0 < k → ¬ type (crowd_rule ((k - 1) / 2)) < type (crowd_rule k).
Proof.
  intros Hk. unfold crowd_rule, crowd_pieces. simpl.
  repeat case_decide; simpl; try lia; zlia.
Qed.

Lemma crowd_rule_group k : groupId (crowd_rule k) = 0.
Proof.
  unfold crowd_rule, crowd_pieces. simpl. by repeat case_decide.
Qed.

Lemma push_crowd capacity currentSize (n : nat) :
  Z.of_nat n < UINT_MODULUS →
  push 1 (mk capacity currentSize [denote (crowd (Z.of_nat n))])
         (crowd_rule (Z.of_nat n))
  = Done (mk capacity (wrap (currentSize + 1))
             [denote (crowd (Z.of_nat (S n)))]).
Proof.
  intros Hn. rewrite denote_crowd_S.
  apply push_no_swap;
    [apply crowd_rule_group|rewrite vsize_denote; simpl; lia|].
  intros Hne. rewrite vsize_denote by (simpl; lia). simpl.
  assert (0 < Z.of_nat n) as Hpos.
  { destruct n; [done|lia]. }
  exists (crowd_rule ((Z.of_nat n - 1) / 2)).
  split; [|by apply crowd_rule_parent].
  rewrite vget_denote by (simpl; zlia). done.
Qed.

Lemma run_snoc fits q ops q1 fuel o q2 :
  run fits q ops q1 → fits q1 → apply_op fuel q1 o = Done q2 →
  run fits q (ops ++ [o]) q2.
Proof.
  induction 1 as [q|q o' fuel' q' ops q1 Hfits Hop _ IH]; intros Hf Ho; simpl.
  - eapply run_cons; [done|done|apply run_nil].
  - eapply run_cons; [done|done|]. by apply IH.
Qed.

Lemma run_crowd capacity (n : nat) :
  Z.of_nat n <= UINT_MODULUS →
  run (λ _, True) (mk capacity 0 [[]]) (Push <$> denote (crowd (Z.of_nat n)))
      (mk capacity (wrap (Z.of_nat n)) [denote (crowd (Z.of_nat n))]).
Proof.
  induction n as [|n IH]; intros Hn.
  - apply run_nil.
  - rewrite denote_crowd_S at 1. rewrite fmap_app. simpl.
    apply (run_snoc _ _ _ _ 1 _ _ (IH ltac:(lia)) I). simpl.
    rewrite push_crowd by lia. do 2 f_equal. zlia.
Qed.

Lemma reachable_crowd capacity (n : nat) :
  is_uint capacity → Z.of_nat n <= capacity →
  reachable capacity 1
    (mk capacity (Z.of_nat n) [denote (crowd (Z.of_nat n))]).
Proof.
  intros Hc. unfold is_uint in Hc. induction n as [|n IH]; intros Hn.
  - apply reachable_new.
  - eapply (reachable_push _ _ 1 _ (crowd_rule (Z.of_nat n))); [apply IH; lia| |].
    + apply bool_decide_eq_false. simpl. lia.
    + rewrite push_crowd by lia. do 2 f_equal. zlia.
Qed.

Lemma run_crowd_Z capacity n :
  0 <= n <= UINT_MODULUS →
  run (λ _, True) (new capacity 1) (Push <$> denote (crowd n))
      (mk capacity (wrap n) [denote (crowd n)]).
Proof.
  intros Hn. pose proof (run_crowd capacity (Z.to_nat n)) as H.
  rewrite Z2Nat.id in H by lia. apply H. lia.
Qed.

Lemma reachable_crowd_Z capacity n :
  is_uint capacity → 0 <= n <= capacity →
  reachable capacity 1 (mk capacity n [denote (crowd n)]).
Proof.
  intros Hc Hn. pose proof (reachable_crowd capacity (Z.to_nat n) Hc) as H.
  rewrite Z2Nat.id in H by lia. apply H. lia.
Qed.

Lemma group_single capacity currentSize v :
  group (mk capacity currentSize [v]) 0 = Done v.
Proof. reflexivity. Qed.

Lemma isEmpty_denote capacity currentSize s :
  1 <= sv_size s →
  isEmpty (mk capacity currentSize [denote s]) 0 = Done false.
Proof.
  intros H. unfold isEmpty. rewrite group_single. simpl. f_equal.
  apply bool_decide_eq_false. by apply denote_nonempty.
Qed.

Lemma top_denote capacity currentSize s :
  1 <= sv_size s →
  top (mk capacity currentSize [denote s]) 0 = Done (sv_get s 0).
Proof.
  intros H. unfold top. rewrite group_single. simpl.
  rewrite vat_denote. unfold sv_at. by rewrite decide_True by lia.
Qed.

Lemma elem_of_denote s k : 0 <= k < sv_size s → sv_get s k ∈ denote s.
Proof.
  intros H. pose proof (vget_denote s k H) as E. rewrite ?vget_lookup in E.
  rewrite decide_True in E by lia. by apply list_elem_of_lookup_2 in E.
Qed.

Lemma not_max_heap_denote s i c :
  0 <= i → c = 2 * i + 1 ∨ c = 2 * i + 2 → c < sv_size s →
  type (sv_get s i) < type (sv_get s c) →
  ¬ max_heap (denote s).
Proof.
  intros Hi Hc Hs Hlt H.
  specialize (H i c (sv_get s i) (sv_get s c) Hi Hc).
  rewrite !vget_denote in H by lia. specialize (H eq_refl eq_refl). lia.
Qed.

(** ** The crowded heap, popped *)

Lemma crowd_popped_spec :
  sv_down_iter 80 (sv_replace_root (crowd CROWD_SIZE)) 0
  = Done (inr crowd_popped).
Proof. vm_compute. reflexivity. Qed.

Lemma crowd_popped_facts :
  sv_size crowd_popped = 2147483648 ∧
  type (sv_get crowd_popped 1073741823) = 2 ∧
  type (sv_get crowd_popped 2147483647) = 3 ∧
  Request_lt (sv_get crowd_popped ((sv_size crowd_popped - 1) / 2))
             (mkRequest 0 2) = false.
Proof. vm_compute. done. Qed.

Lemma crowd_popped_twice_spec :
  sv_down_iter 80
    (sv_replace_root (sv_push_back crowd_popped (mkRequest 0 2))) 0
  = Done (inr crowd_popped_twice).
Proof. vm_compute. reflexivity. Qed.

Lemma crowd_popped_twice_facts :
  sv_size crowd_popped_twice = 2147483648 ∧
  type (sv_get crowd_popped_twice 0) = 2 ∧
  type (sv_get crowd_popped_twice 2147483647) = 3.
Proof. vm_compute. done. Qed.

Lemma run_crowd_popped :
  run (λ _, True) (new CROWD_SIZE 1)
      ((Push <$> denote (crowd CROWD_SIZE)) ++ [Pop 0])
      (mk CROWD_SIZE (wrap (wrap CROWD_SIZE - 1)) [denote crowd_popped]).
Proof.
  eapply (run_snoc _ _ _ _ 80).
  - apply run_crowd_Z. unfold CROWD_SIZE, UINT_MODULUS. lia.
  - exact I.
  - apply (pop_denote 80 80);
      [unfold CROWD_SIZE; simpl; lia|apply crowd_popped_spec|lia].
Qed.

Lemma reachable_crowd_popped_twice :
  ∃ currentSize,
    reachable CROWD_SIZE 1 (mk CROWD_SIZE currentSize [denote crowd_popped_twice]).
Proof.
  destruct crowd_popped_facts as (Hs & _ & _ & Hlt).
  pose (r2 := mkRequest 0 2).
  assert (reachable CROWD_SIZE 1
            (mk CROWD_SIZE CROWD_SIZE [denote (crowd CROWD_SIZE)])) as H0.
  { apply reachable_crowd_Z; unfold is_uint, CROWD_SIZE, UINT_MODULUS; lia. }
  assert (reachable CROWD_SIZE 1
            (mk CROWD_SIZE (wrap (CROWD_SIZE - 1)) [denote crowd_popped]))
    as H1.
  { apply (reachable_pop _ _ 80 _ 0 _ H0); [lia| |].
    - apply isEmpty_denote. unfold CROWD_SIZE. simpl. lia.
    - apply (pop_denote 80 80);
        [unfold CROWD_SIZE; simpl; lia|apply crowd_popped_spec|lia]. }
  assert (reachable CROWD_SIZE 1
            (mk CROWD_SIZE (wrap (wrap (CROWD_SIZE - 1) + 1))
                [denote (sv_push_back crowd_popped r2)])) as H2.
  { apply (reachable_push _ _ 1 _ r2 _ H1).
    - unfold isFull. cbn [currentSize capacity].
      apply bool_decide_eq_false. clear. unfold CROWD_SIZE. zlia.
    - apply push_denote; [rewrite Hs; unfold UINT_MODULUS; lia|
                          reflexivity|exact Hlt]. }
  eexists.
  apply (reachable_pop _ _ 80 _ 0 _ H2); [lia| |].
  - apply isEmpty_denote. cbn [sv_push_back sv_size]. rewrite Hs. lia.
  - apply (pop_denote 80 80);
      [cbn [sv_push_back sv_size]; rewrite Hs; lia
      |apply crowd_popped_twice_spec|lia].
Qed.

(** ** The sift procedures return *)

Lemma heapifyUp_returns fuel : ∀ v k,
  0 <= k < vsize v → vsize v <= UINT_MODULUS → (Z.to_nat k < fuel)%nat →
  ∃ v', heapifyUp fuel v k = Done v'.
Proof.
  induction fuel as [|fuel IH]; intros v k Hk Hn Hf; [lia|]. simpl.
  destruct (decide (k = 0)); [by eexists|].
  assert (wrap (k - 1) = k - 1) as -> by zlia.
  assert (0 <= (k - 1) / 2 < k) as Hp by zlia.
  destruct (vat_in_range v ((k - 1) / 2)) as [p ->]; [lia|].
  destruct (vat_in_range v k) as [c ->]; [lia|]. simpl.
  destruct (negb _); [by eexists|].
  destruct (vswap_in_range v ((k - 1) / 2) k) as [w Hw]; [lia|lia|].
  rewrite Hw. simpl. apply IH; [|by rewrite (vsize_vswap _ _ _ _ Hw)|lia].
  rewrite (vsize_vswap _ _ _ _ Hw). lia.
Qed.

Lemma heapifyDown_not_OutOfFuel fuel : ∀ v k,
  is_uint k → vsize v < SAFE_HEAP_SIZE →
  (Z.to_nat (vsize v - k) < fuel)%nat →
  heapifyDown fuel v k ≠ OutOfFuel.
Proof.
  induction fuel as [|fuel IH]; intros v k Hk Hn Hf; [lia|]. simpl.
  apply bind_not_OutOfFuel; [apply child_is_larger_not_OutOfFuel|].
  intros b1 Hb1.
  apply bind_not_OutOfFuel; [apply child_is_larger_not_OutOfFuel|].
  intros b2 Hb2.
  destruct (decide _) as [|Hne]; [done|].
  apply bind_not_OutOfFuel; [apply vswap_not_OutOfFuel|].
  intros w Hw. pose proof (vsize_vswap _ _ _ _ Hw) as Hsize.
  apply vswap_Done in Hw as (a & b & Ha%vget_Some_range & Hb%vget_Some_range & _).
  unfold SAFE_HEAP_SIZE, is_uint in *.
  assert (wrap (2 * k + 1) = 2 * k + 1) as Hl by zlia.
  assert (wrap (2 * k + 2) = 2 * k + 2) as Hr by zlia.
  rewrite Hl, Hr in *.
  apply IH; [|lia|]; destruct b1, b2; unfold UINT_MODULUS; try lia; done.
Qed.

Lemma heapifyDown_returns fuel : ∀ v k,
  0 <= k < vsize v → vsize v < SAFE_HEAP_SIZE →
  (Z.to_nat (vsize v - k) < fuel)%nat →
  ∃ v', heapifyDown fuel v k = Done v'.
Proof.
  induction fuel as [|fuel IH]; intros v k Hk Hn Hf; [lia|].
  unfold SAFE_HEAP_SIZE in *. simpl.
  assert (wrap (2 * k + 1) = 2 * k + 1) as -> by zlia.
  assert (wrap (2 * k + 2) = 2 * k + 2) as -> by zlia.
  rewrite child_is_larger_spec by lia. simpl.
  set (b1 := bool_decide _).
  set (l1 := if b1 then 2 * k + 1 else k).
  assert (0 <= l1 < vsize v) as Hl1.
  { subst l1 b1. case_bool_decide; lia. }
  rewrite child_is_larger_spec by lia. simpl.
  set (b2 := bool_decide _).
  set (l2 := if b2 then 2 * k + 2 else l1).
  assert (0 <= l2 < vsize v ∧ (l2 ≠ k → k < l2)) as [Hl2 Hgt].
  { subst l2 b2 l1 b1. repeat case_bool_decide; lia. }
  clearbody l2. destruct (decide (l2 = k)); [by eexists|].
  destruct (vswap_in_range v k l2) as [w Hw]; [lia|lia|].
  rewrite Hw. simpl. pose proof (vsize_vswap _ _ _ _ Hw) as Hsize.
  apply IH; lia.
Qed.

(** ** Push and pop return *)

(** A push to an existing group returns when the recursion budget exceeds
    the size of the group's vector. *)
Lemma push_returns fuel q r v :
  group q (groupId r) = Done v → vsize v < UINT_MODULUS →
  (Z.to_nat (vsize v) < fuel)%nat →
  ∃ q', push fuel q r = Done q'.
Proof.
  intros Hv Hsize Hf. pose proof (vsize_nonneg v).
  destruct (heapifyUp_returns fuel (v ++ [r]) (vsize v)) as [v' Hv'];
    [rewrite vsize_snoc; lia|rewrite vsize_snoc; lia|done|].
  eexists. apply (push_intro fuel q r v v' Hv).
  by assert (wrap (vsize v) = vsize v) as -> by zlia.
Qed.

(** A pop from a non-empty group of at most 2^31 elements returns when
    the recursion budget is at least the size of the group's vector. *)
Lemma pop_returns fuel q g v :
  group q g = Done v → v ≠ [] → vsize v <= SAFE_HEAP_SIZE →
  (Z.to_nat (vsize v) <= fuel)%nat →
  ∃ q', pop fuel q g = Done q'.
Proof.
  intros Hv Hne Hsize Hf.
  assert (1 <= vsize v) as Hpos.
  { destruct v; [done|]. rewrite vsize_cons. pose proof (vsize_nonneg v). lia. }
  destruct (vget_in_range v (vsize v - 1)) as [x Hx]; [lia|].
  assert (vsize (removelast (vset v 0 x)) = vsize v - 1) as Hs.
  { rewrite vsize_removelast, vsize_vset; [done|].
    intros E. apply (f_equal vsize) in E. rewrite vsize_vset in E.
    unfold vsize in E at 2. simpl in E. lia. }
  destruct (decide (vsize v = 1)) as [H1|H1].
  - assert (removelast (vset v 0 x) = []) as E.
    { destruct (removelast (vset v 0 x)); [done|].
      rewrite vsize_cons in Hs. pose proof (vsize_nonneg l). lia. }
    eexists. apply (pop_intro fuel q g v x [] Hv Hx). rewrite E.
    destruct fuel; [lia|]. reflexivity.
  - destruct (heapifyDown_returns fuel (removelast (vset v 0 x)) 0)
      as [v' Hv']; [lia|lia|lia|].
    eexists. apply (pop_intro fuel q g v x v' Hv Hx Hv').
Qed.

(** ** The recursive calls of the sift procedures *)

(** A call of [heapifyUp] returns the vector as it is, reads out of
    bounds, or calls itself with a smaller index. *)
Lemma heapifyUp_call fuel v index :
  is_uint index →
  heapifyUp (S fuel) v index = Done v ∨
  heapifyUp (S fuel) v index = Undefined ∨
  ∃ v' parent, 0 <= parent < index ∧ vsize v' = vsize v ∧
               heapifyUp (S fuel) v index = heapifyUp fuel v' parent.
Proof.
  intros Hi. unfold is_uint in Hi. simpl.
  destruct (decide (index = 0)); [by left|].
  destruct (vat v (wrap (index - 1) / 2)) as [p| |] eqn:Hp; simpl;
    [|by right; left|by apply vat_not_OutOfFuel in Hp].
  destruct (vat v index) as [c| |] eqn:Hc; simpl;
    [|by right; left|by apply vat_not_OutOfFuel in Hc].
  destruct (negb (Request_lt p c)); [by left|].
  destruct (vswap v (wrap (index - 1) / 2) index) as [w| |] eqn:Hw; simpl;
    [|by right; left|by apply vswap_not_OutOfFuel in Hw].
  right; right. exists w, (wrap (index - 1) / 2).
  split_and!; [zlia|zlia|by apply vsize_vswap in Hw|done].
Qed.

(** On a vector of fewer than 2^31 elements, a call of [heapifyDown]
    returns the vector as it is, reads out of bounds, or calls itself with
    a larger index that is still within the vector. *)
Lemma heapifyDown_call fuel v index :
  is_uint index → vsize v < SAFE_HEAP_SIZE →
  heapifyDown (S fuel) v index = Done v ∨
  heapifyDown (S fuel) v index = Undefined ∨
  ∃ v' large, index < large < vsize v ∧ vsize v' = vsize v ∧
              heapifyDown (S fuel) v index = heapifyDown fuel v' large.
Proof.
  intros Hi Hs. unfold is_uint, SAFE_HEAP_SIZE in *. simpl.
  destruct (child_is_larger v (wrap (2 * index + 1)) index) as [b1| |] eqn:H1;
    simpl; [|by right; left|by apply child_is_larger_not_OutOfFuel in H1].
  destruct (child_is_larger v (wrap (2 * index + 2)) _) as [b2| |] eqn:H2;
    simpl; [|by right; left|by apply child_is_larger_not_OutOfFuel in H2].
  destruct (decide _) as [|Hne]; [by left|].
  destruct (vswap v index _) as [w| |] eqn:Hw; simpl;
    [|by right; left|by apply vswap_not_OutOfFuel in Hw].
  right; right. eexists w, _. split_and!; [| |by apply vsize_vswap in Hw|done].
  - apply vswap_Done in Hw as (a & b & Ha%vget_Some_range & _).
    destruct b1, b2; try done; zlia.
  - apply vswap_Done in Hw as (a & b & _ & Hb%vget_Some_range & _). lia.
Qed.

(** * The claims *)

(** ** Small queues used as instances *)

Lemma reachable_one_push :
  reachable 10 2 (RequestQueue.mk 10 1 [[mkRequest 0 1]; []]).
Proof.
  apply (reachable_push 10 2 1 (RequestQueue.new 10 2) (mkRequest 0 1));
    [apply reachable_new|reflexivity|reflexivity].
Qed.

(** ** C1 *)

(** C1.  The code breaks the claim.  In a queue of capacity 2^31 + 1 with
    one group, after 2^31 + 1 pushes, a pop, a push and another pop, each
    allowed by the protocol, [top] returns a request of type 2 while a
    request of type 3 is still stored in the vector: in the sift-down of
    a pop the index of a right child, 2 * (2^31 - 1) + 2, wrapped around
    to 0 in [unsigned int] and passed the test against the size. *)
Lemma top_not_maximum :
  ¬ (∀ capacity numOfGroups q g v,
       is_uint capacity → is_uint numOfGroups →
       reachable capacity numOfGroups q →
       RequestQueue.group q g = Done v → v ≠ [] →
       ∃ t, RequestQueue.top q g = Done t ∧ ∀ x, x ∈ v → type x <= type t).
Proof.
  intros H.
  destruct reachable_crowd_popped_twice as [currentSize Hreach].
  destruct crowd_popped_twice_facts as (Hs & H0 & H3).
  assert (is_uint CROWD_SIZE) as Hc
    by (unfold is_uint, CROWD_SIZE, UINT_MODULUS; lia).
  assert (is_uint 1) as Hn by (unfold is_uint, UINT_MODULUS; lia).
  assert (denote crowd_popped_twice ≠ []) as Hne
    by (apply denote_nonempty; lia).
  destruct (H CROWD_SIZE 1 _ 0 (denote crowd_popped_twice) Hc Hn Hreach
              (group_single _ _ _) Hne) as (t & Ht & Hmax).
  rewrite top_denote in Ht by lia. apply Done_inj in Ht. subst t.
  assert (sv_get crowd_popped_twice 2147483647 ∈ denote crowd_popped_twice)
    as Hin by (apply elem_of_denote; lia).
  apply Hmax in Hin.
  lia.
Qed.

(** ** C2 *)

(** C2.  The code breaks the claim.  After 2^31 + 1 pushes to one group
    and one pop, the vector of the group is no longer a max-heap: the
    sift-down reaches position 2^31 - 1, where the index of the right
    child wraps around to 0 in [unsigned int], and swaps the root, of
    type 3, down to that position, below a parent of type 2. *)
Lemma heap_order_lost :
  ¬ (∀ capacity numOfGroups ops q',
       run (λ _, True) (RequestQueue.new capacity numOfGroups) ops q' →
       ∀ g v, RequestQueue.group q' g = Done v → max_heap v).
Proof.
  intros H.
  destruct crowd_popped_facts as (Hs & H2 & H3 & _).
  apply (not_max_heap_denote crowd_popped 1073741823 2147483647);
    [lia|lia|lia|lia|].
  apply (H _ _ _ _ run_crowd_popped 0). apply group_single.
Qed.

(** ** C3 *)

(** C3. In every state reached from the freshly constructed queue by
    pushes made only when [isFull] is false and pops made only from
    existing groups that are not empty, [currentSize] equals the sum of
    the sizes of the vectors of all groups and lies between 0 and
    [capacity]. *)
Theorem current_size_invariant capacity numOfGroups q :
  is_uint capacity → is_uint numOfGroups →
  reachable capacity numOfGroups q →
  RequestQueue.currentSize q = total_size (RequestQueue.allRequests q) ∧
  0 <= RequestQueue.currentSize q <= RequestQueue.capacity q.
Proof.
  intros Hc Hn Hq.
  destruct (reachable_counters_ok _ _ _ Hc Hn Hq) as (Hcap & _ & Hsum & Hr).
  rewrite Hcap. done.
Qed.

Lemma current_size_invariant_witness :
  is_uint 10 ∧ is_uint 2 ∧
  reachable 10 2 (RequestQueue.mk 10 1 [[mkRequest 0 1]; []]) ∧
  1 = total_size [[mkRequest 0 1]; []] ∧ 0 <= 1 <= 10.
Proof.
  assert (is_uint 10) as H10 by (unfold is_uint, UINT_MODULUS; lia).
  assert (is_uint 2) as H2 by (unfold is_uint, UINT_MODULUS; lia).
  split; [exact H10|]. split; [exact H2|]. split; [exact reachable_one_push|].
  exact (current_size_invariant 10 2 _ H10 H2 reachable_one_push).
Defined.

(** ** C4 *)

(** C4. When a thread returns from its wait and finds the shutdown flag
    set, it leaves its loop at once without touching the store, whatever
    the state of the queue: the worker does not pop and the generator does
    not push, even if the worker's group is not empty and the queue is not
    full.  This holds of the loop bodies and of the loops: a thread woken
    in such a state exits in that state, its list of mutations empty,
    whatever wake-ups were still to come. *)
Theorem shutdown_takes_priority fuel device numGroups w :
  threadIsfFinished w = true →
  requestProcessing_body fuel device w = Done (mkPass Break w []) ∧
  (∀ w0 change others,
     change w0 = w → requestProcessing_ready device w = Done true →
     requestProcessing fuel device (change :: others) w0
     = Done (true, w, [])) ∧
  ∀ (rng : Type) (draw : Z → Z → rng → Z * rng) (gen : rng),
    generateRequest_body draw fuel numGroups w gen
    = Done (mkPass Break w [], gen) ∧
    ∀ w0 change others,
      change w0 = w →
      generateRequest draw fuel numGroups (change :: others) w0 gen
      = Done (true, w, [], gen).
Proof.
  intros H.
  assert (requestProcessing_body fuel device w = Done (mkPass Break w []))
    as Hbody by (unfold requestProcessing_body; by rewrite H).
  split_and!.
  - exact Hbody.
  - intros w0 change others <- Hready. simpl. rewrite Hready. simpl.
    by rewrite Hbody.
  - intros rng draw gen.
    assert (generateRequest_body draw fuel numGroups w gen
            = Done (mkPass Break w [], gen)) as Hgen
      by (unfold generateRequest_body; by rewrite H).
    split; [exact Hgen|].
    intros w0 change others <-. simpl.
    unfold generateRequest_ready at 1. rewrite H, orb_true_r. simpl.
    by rewrite Hgen.
Qed.

Lemma shutdown_takes_priority_witness :
  let w0 := mkWorld (RequestQueue.mk 10 1 [[mkRequest 0 1]; []]) false in
  let w := signalHandler w0 in
  threadIsfFinished w = true ∧
  RequestQueue.isEmpty (queue w) 0 = Done false ∧
  RequestQueue.isFull (queue w) = false ∧
  requestProcessing_body 5 (mkDevice 0 0) w = Done (mkPass Break w []) ∧
  (∀ w0 change others,
     change w0 = w → requestProcessing_ready (mkDevice 0 0) w = Done true →
     requestProcessing 5 (mkDevice 0 0) (change :: others) w0
     = Done (true, w, [])) ∧
  ∀ (rng : Type) (draw : Z → Z → rng → Z * rng) (gen : rng),
    generateRequest_body draw 5 2 w gen = Done (mkPass Break w [], gen) ∧
    ∀ w0 change others,
      change w0 = w →
      generateRequest draw 5 2 (change :: others) w0 gen
      = Done (true, w, [], gen).
Proof.
  intros w0 w. do 3 (split; [reflexivity|]).
  exact (shutdown_takes_priority 5 (mkDevice 0 0) 2 w eq_refl).
Defined.

(** ** C5 *)

(** C5. With two groups and capacity 10, after the requests of type 1, 3
    and 2 have been pushed to group 0 in this order, three successive
    remove-max operations on group 0 yield the types 3, 2, 1. *)
Theorem three_requests_in_priority_order fuel :
  three_requests (S (S fuel)) = Done [3; 2; 1].
Proof. reflexivity. Qed.

(** ** C6 *)

(** C6. When the vector of a group holds exactly one request, a pop
    returns and leaves that vector empty, so that [isEmpty] answers true.
    The sift-down is then called on the empty vector and returns it at
    once.  Every read of an element of the empty vector is out of bounds
    and would make the outcome [Undefined], so the sift-down has read
    none. *)
Theorem pop_single_element fuel q g r :
  RequestQueue.group q g = Done [r] →
  ∃ q', RequestQueue.pop (S fuel) q g = Done q' ∧
        RequestQueue.group q' g = Done [] ∧
        RequestQueue.isEmpty q' g = Done true ∧
        (a ← vback [r]; v ← vassign [r] 0 a; vpop_back v) = Done [] ∧
        heapifyDown (S fuel) [] 0 = Done [] ∧
        ∀ i, vat (@nil Request) i = Undefined.
Proof.
  intros Hv. pose proof Hv as Hv2. apply group_Done in Hv2.
  exists (RequestQueue.mk (RequestQueue.capacity q)
            (wrap (RequestQueue.currentSize q - 1))
            (vset (RequestQueue.allRequests q) g [])).
  assert (RequestQueue.group
            (RequestQueue.mk (RequestQueue.capacity q)
               (wrap (RequestQueue.currentSize q - 1))
               (vset (RequestQueue.allRequests q) g [])) g = Done []) as Hg.
  { by apply (group_vset_eq _ _ _ _ [r]). }
  split_and!.
  - unfold RequestQueue.pop. rewrite Hv. reflexivity.
  - exact Hg.
  - unfold RequestQueue.isEmpty. rewrite Hg. reflexivity.
  - reflexivity.
  - reflexivity.
  - apply vat_nil.
Qed.

Lemma pop_single_element_witness :
  RequestQueue.group (RequestQueue.mk 10 1 [[mkRequest 0 1]; []]) 0
    = Done [mkRequest 0 1] ∧
  ∃ q', RequestQueue.pop 1 (RequestQueue.mk 10 1 [[mkRequest 0 1]; []]) 0
          = Done q' ∧
        RequestQueue.group q' 0 = Done [] ∧
        RequestQueue.isEmpty q' 0 = Done true ∧
        (a ← vback [mkRequest 0 1]; v ← vassign [mkRequest 0 1] 0 a;
         vpop_back v) = Done [] ∧
        heapifyDown 1 [] 0 = Done [] ∧
        ∀ i, vat (@nil Request) i = Undefined.
Proof.
  split; [reflexivity|].
  exact (pop_single_element 0 (RequestQueue.mk 10 1 [[mkRequest 0 1]; []]) 0
           (mkRequest 0 1) eq_refl).
Defined.

(** ** C7 *)

(** C7. If every draw from a distribution over a non-empty range lies in
    that range, then every request the generator builds has its type
    between 1 and 3 and its group between 0 and [numGroups - 1]. *)
Theorem generated_request_in_range {rng : Type}
    (draw : Z → Z → rng → Z * rng) numGroups gen request gen' :
  (∀ start end_ g, start <= end_ → start <= (draw start end_ g).1 <= end_) →
  new_request draw numGroups gen = Done (request, gen') →
  1 <= type request <= 3 ∧ 0 <= groupId request < numGroups.
Proof.
  intros Hdraw. unfold new_request, int_sub, getRandomNumber.
  destruct (decide (is_int (numGroups - 1))); [|done]. simpl.
  destruct (decide (0 <= numGroups - 1)) as [Hg|]; [|done]. simpl.
  pose proof (Hdraw 0 (numGroups - 1) gen Hg) as H1.
  destruct (draw 0 (numGroups - 1) gen) as [g gen1]. simpl in *.
  unfold MIN_REQUEST_TYPE, MAX_REQUEST_TYPE.
  destruct (decide (1 <= 3)) as [H13|]; [|lia]. simpl.
  pose proof (Hdraw 1 3 gen1 H13) as H2.
  destruct (draw 1 3 gen1) as [t gen2]. simpl in *.
  intros [= <- <-]. simpl. lia.
Qed.

Lemma generated_request_in_range_witness :
  let draw := λ (start end_ : Z) (g : unit), (end_, g) in
  (∀ start end_ g, start <= end_ → start <= (draw start end_ g).1 <= end_) ∧
  new_request draw 2 () = Done (mkRequest 1 3, ()) ∧
  1 <= type (mkRequest 1 3) <= 3 ∧ 0 <= groupId (mkRequest 1 3) < 2.
Proof.
  intros draw.
  assert (∀ start end_ g, start <= end_ →
            start <= (draw start end_ g).1 <= end_) as Hdraw.
  { intros start end_ g H. simpl. lia. }
  split; [exact Hdraw|]. split; [reflexivity|].
  exact (generated_request_in_range draw 2 () (mkRequest 1 3) () Hdraw eq_refl).
Defined.

(** ** C8 *)

Lemma elem_of_uint_range n x : x ∈ uint_range n ↔ 0 <= x < n.
Proof.
  unfold uint_range. rewrite list_elem_of_fmap. split.
  - intros (k & -> & Hk%elem_of_seq). lia.
  - intros H. exists (Z.to_nat x). split; [lia|]. apply elem_of_seq. lia.
Qed.

Lemma NoDup_uint_range n : NoDup (uint_range n).
Proof.
  unfold uint_range. apply NoDup_fmap_2; [|apply NoDup_seq].
  intros x y. lia.
Qed.

Lemma length_uint_range n : length (uint_range n) = Z.to_nat n.
Proof. unfold uint_range. by rewrite length_fmap, length_seq. Qed.




(** *** The devices in the order of the loops *)

Lemma elem_of_device_sequence numOfGroups numOfDevices d :
  d ∈ device_sequence numOfGroups numOfDevices ↔
  ∃ i q, 0 <= i < numOfGroups ∧ 0 <= q < numOfDevices ∧
         d = mkDevice (to_int i) (device_id numOfDevices i q).
Proof.
  unfold device_sequence. rewrite list_elem_of_bind. split.
  - intros (i & (q & Hd & Hq)%list_elem_of_bind & Hi).
    apply elem_of_uint_range in Hi, Hq. apply list_elem_of_singleton in Hd.
    eauto.
  - intros (i & q & Hi & Hq & ->). exists i. split.
    + apply list_elem_of_bind. exists q.
      split; [by apply list_elem_of_singleton|by apply elem_of_uint_range].
    + by apply elem_of_uint_range.
Qed.

Lemma length_bind_const {A B} (f : A → list B) n (l : list A) :
  (∀ x, length (f x) = n) → length (l ≫= f) = (length l * n)%nat.
Proof.
  intros Hf. induction l as [|x l IH]; [done|].
  rewrite bind_cons, length_app, IH, Hf. simpl. lia.
Qed.

Lemma length_device_sequence numOfGroups numOfDevices :
  length (device_sequence numOfGroups numOfDevices)
  = (Z.to_nat numOfGroups * Z.to_nat numOfDevices)%nat.
Proof.
  unfold device_sequence.
  rewrite (length_bind_const _ (Z.to_nat numOfDevices)).
  - by rewrite length_uint_range.
  - intros i. rewrite (length_bind_const _ 1%nat) by done.
    rewrite length_uint_range. lia.
Qed.






(** *** Starting the threads *)

Lemma start_threads_app max_threads : ∀ devices devices' devicesThreads,
  start_threads max_threads devicesThreads (devices ++ devices')
  = match start_threads max_threads devicesThreads devices with
    | Started devicesThreads' =>
        start_threads max_threads devicesThreads' devices'
    | system_error devicesThreads' device =>
        system_error devicesThreads' device
    end.
Proof.
  induction devices as [|d devices IH]; intros devices' ts; [done|].
  simpl. destruct (emplace_back max_threads ts d); [apply IH|done].
Qed.

Lemma for_loop_start_threads max_threads
    (body : Z → list Device → startup) (devices : Z → list Device) :
  (∀ i devicesThreads,
     body i devicesThreads
     = start_threads max_threads devicesThreads (devices i)) →
  ∀ counter devicesThreads,
    for_loop body counter devicesThreads
    = start_threads max_threads devicesThreads (counter ≫= devices).
Proof.
  intros Hbody. induction counter as [|i counter IH]; intros ts; [done|].
  rewrite bind_cons, start_threads_app. simpl. rewrite Hbody.
  destruct (start_threads max_threads ts (devices i)); [apply IH|done].
Qed.

Lemma main_devices_start_threads max_threads numOfGroups numOfDevices :
  main_devices max_threads numOfGroups numOfDevices
  = start_threads max_threads []
      (device_sequence numOfGroups numOfDevices).
Proof.
  unfold main_devices, device_sequence.
  apply for_loop_start_threads. intros i ts.
  apply for_loop_start_threads. intros q ts'. simpl.
  by destruct (emplace_back max_threads ts' _).
Qed.


Lemma start_threads_Started max_threads : ∀ devices devicesThreads,
  vsize devicesThreads + vsize devices <= max_threads →
  start_threads max_threads devicesThreads devices
  = Started (devicesThreads ++ devices).
Proof.
  induction devices as [|d devices IH]; intros ts Hlen; simpl.
  - by rewrite app_nil_r.
  - rewrite vsize_cons in Hlen. pose proof (vsize_nonneg devices).
    unfold emplace_back. rewrite decide_True by lia.
    rewrite IH by (rewrite vsize_snoc; lia). by rewrite <- app_assoc.
Qed.

Lemma start_threads_system_error max_threads : ∀ devices devicesThreads,
  vsize devicesThreads <= max_threads <
    vsize devicesThreads + vsize devices →
  ∃ devicesThreads' device,
    start_threads max_threads devicesThreads devices
    = system_error devicesThreads' device ∧
    vsize devicesThreads' = max_threads.
Proof.
  induction devices as [|d devices IH]; intros ts Hlen; simpl.
  - unfold vsize in Hlen at 3. simpl in Hlen. lia.
  - rewrite vsize_cons in Hlen. unfold emplace_back.
    destruct (decide (vsize ts < max_threads)).
    + apply IH. rewrite vsize_snoc. lia.
    + exists ts, d. split; [done|lia].
Qed.





(** ** C9 *)

(** C9. A push changes only the vector of the request's group and
    [currentSize]; a pop changes only the vector of its group and
    [currentSize].  The capacity, the number of groups and the vector of
    every other group are as before. *)
Theorem push_pop_frame fuel q o q' :
  apply_op fuel q o = Done q' →
  RequestQueue.capacity q' = RequestQueue.capacity q ∧
  vsize (RequestQueue.allRequests q') = vsize (RequestQueue.allRequests q) ∧
  ∀ g, g ≠ op_group o → RequestQueue.group q' g = RequestQueue.group q g.
Proof.
  destruct o as [r|g0]; simpl.
  - intros (v & v' & Hv & _ & ->)%push_Done. simpl.
    rewrite vsize_vset. split_and!; try done.
    intros g Hg. apply group_Done, vget_Some_range in Hv.
    unfold RequestQueue.group, vat. simpl.
    by rewrite vget_vset_ne by (try done; lia).
  - intros (v & x & v' & Hv & _ & _ & _ & ->)%pop_Done. simpl.
    rewrite vsize_vset. split_and!; try done.
    intros g Hg. apply group_Done, vget_Some_range in Hv.
    unfold RequestQueue.group, vat. simpl.
    by rewrite vget_vset_ne by (try done; lia).
Qed.

Lemma push_pop_frame_witness :
  apply_op 1 (RequestQueue.new 10 2) (Push (mkRequest 0 1))
    = Done (RequestQueue.mk 10 1 [[mkRequest 0 1]; []]) ∧
  RequestQueue.capacity (RequestQueue.mk 10 1 [[mkRequest 0 1]; []])
    = RequestQueue.capacity (RequestQueue.new 10 2) ∧
  vsize (RequestQueue.allRequests (RequestQueue.mk 10 1 [[mkRequest 0 1]; []]))
    = vsize (RequestQueue.allRequests (RequestQueue.new 10 2)) ∧
  ∀ g, g ≠ op_group (Push (mkRequest 0 1)) →
       RequestQueue.group (RequestQueue.mk 10 1 [[mkRequest 0 1]; []]) g
       = RequestQueue.group (RequestQueue.new 10 2) g.
Proof.
  split; [reflexivity|].
  exact (push_pop_frame 1 (RequestQueue.new 10 2) (Push (mkRequest 0 1))
           (RequestQueue.mk 10 1 [[mkRequest 0 1]; []]) eq_refl).
Defined.

(** ** C10 *)

(** C10.  The code breaks the claim.  On the vector [looping], of 2^31
    elements, the sift-down from the root never returns: at position
    2^31 - 1 the index of the right child, 2 * (2^31 - 1) + 2, wraps
    around to 0 in [unsigned int], and the element being sifted goes
    round the same 32 positions for ever. *)
Lemma sift_down_diverges :
  ¬ (∀ (v : list Request) (index : Z), is_uint index →
       (∃ fuel, heapifyUp fuel v index ≠ OutOfFuel) ∧
       (∃ fuel, heapifyDown fuel v index ≠ OutOfFuel)).
Proof.
  intros H.
  destruct (H (denote looping) 0) as [_ [fuel Hfuel]].
  - unfold is_uint, UINT_MODULUS. lia.
  - apply Hfuel, heapifyDown_looping.
Qed.

(** * Further properties of the code *)

(** ** Sifting rearranges and nothing else *)

Lemma vswap_Permutation {A} (v w : list A) i j :
  vswap v i j = Done w → w ≡ₚ v.
Proof.
  intros (a & b & Ha & Hb & ->)%vswap_Done.
  pose proof (vget_Some_range _ _ _ Ha) as Hi.
  pose proof (vget_Some_range _ _ _ Hb) as Hj.
  rewrite vget_lookup in Ha, Hb.
  rewrite decide_True in Ha by lia. rewrite decide_True in Hb by lia.
  unfold vset. by apply Permutation_insert_swap.
Qed.

Lemma heapifyUp_Permutation fuel : ∀ v k v',
  heapifyUp fuel v k = Done v' → v' ≡ₚ v.
Proof.
  induction fuel as [|fuel IH]; intros v k v'; simpl; [done|].
  destruct (decide (k = 0)); [by intros [= ->]|].
  intros (p & _ & H)%bind_Done. apply bind_Done in H as (c & _ & H).
  destruct (negb (Request_lt p c)); [by inversion H|].
  apply bind_Done in H as (w & Hw & H).
  apply IH in H. apply vswap_Permutation in Hw. by rewrite H.
Qed.

Lemma heapifyDown_Permutation fuel : ∀ v k v',
  heapifyDown fuel v k = Done v' → v' ≡ₚ v.
Proof.
  induction fuel as [|fuel IH]; intros v k v'; simpl; [done|].
  intros (b1 & _ & H)%bind_Done. apply bind_Done in H as (b2 & _ & H).
  destruct (decide _); [by inversion H|].
  apply bind_Done in H as (w & Hw & H).
  apply IH in H. apply vswap_Permutation in Hw. by rewrite H.
Qed.

(** X1. Whatever the vector, the index and the recursion budget, a sift
    that returns has only rearranged the vector: the vector returned is a
    permutation of the one received.  This holds beyond 2^31 elements
    too, where the order may be lost. *)
Theorem sift_permutes fuel v index v' :
  heapifyUp fuel v index = Done v' ∨ heapifyDown fuel v index = Done v' →
  v' ≡ₚ v.
Proof.
  intros [H|H]; [by apply heapifyUp_Permutation in H
                |by apply heapifyDown_Permutation in H].
Qed.

Lemma sift_permutes_witness :
  (heapifyUp 3 [mkRequest 0 1; mkRequest 0 3] 1
     = Done [mkRequest 0 3; mkRequest 0 1] ∨
   heapifyDown 3 [mkRequest 0 1; mkRequest 0 3] 1
     = Done [mkRequest 0 3; mkRequest 0 1]) ∧
  [mkRequest 0 3; mkRequest 0 1] ≡ₚ [mkRequest 0 1; mkRequest 0 3].
Proof.
  assert (heapifyUp 3 [mkRequest 0 1; mkRequest 0 3] 1
            = Done [mkRequest 0 3; mkRequest 0 1] ∨
          heapifyDown 3 [mkRequest 0 1; mkRequest 0 3] 1
            = Done [mkRequest 0 3; mkRequest 0 1]) as H
    by (left; reflexivity).
  split; [exact H|].
  exact (sift_permutes 3 _ 1 _ H).
Defined.

(** ** What a push adds and a pop removes *)

Lemma replace_root_Permutation {A} (v : list A) t x :
  vget v 0 = Some t → vget v (vsize v - 1) = Some x →
  v ≡ₚ t :: removelast (vset v 0 x).
Proof.
  intros Ht Hx. destruct v as [|t' v]; [by rewrite vget_nil in Ht|].
  rewrite vget_lookup in Ht. simpl in Ht. injection Ht as ->.
  destruct (decide (v = [])) as [->|Hne]; [done|].
  destruct (exists_last Hne) as (w & y & ->).
  rewrite vget_lookup, decide_True in Hx by (pose proof (vsize_nonneg (t :: w ++ [y])); rewrite vsize_cons, vsize_snoc; pose proof (vsize_nonneg w); lia).
  rewrite vsize_cons, vsize_snoc in Hx.
  replace (Z.to_nat (1 + (vsize w + 1) - 1)) with (S (length w)) in Hx
    by (unfold vsize; lia).
  simpl in Hx. rewrite list_lookup_middle in Hx by done. injection Hx as ->.
  unfold vset.
  change (<[Z.to_nat 0:=x]> (t :: w ++ [x])) with ((x :: w) ++ [x]).
  rewrite removelast_last.
  apply perm_skip. apply (Permutation_app_comm w [x]).
Qed.

(** X2. A push that returns has added the request to the vector of its
    group and nothing else: the new vector is a permutation of the old one
    with the request, and [size] has grown by one modulo 2^32. *)
Theorem push_adds_request fuel q request q' :
  RequestQueue.push fuel q request = Done q' →
  ∃ v v', RequestQueue.group q (groupId request) = Done v ∧
          RequestQueue.group q' (groupId request) = Done v' ∧
          v' ≡ₚ request :: v ∧
          RequestQueue.size q' = wrap (RequestQueue.size q + 1).
Proof.
  intros (v & v' & Hv & Hv' & ->)%push_Done.
  exists v, v'. split_and!; [done| | |done].
  2:{ rewrite (heapifyUp_Permutation _ _ _ _ Hv').
      apply (Permutation_app_comm v [request]). }
  apply group_Done in Hv. by apply (group_vset_eq _ _ _ _ v).
Qed.

Lemma push_adds_request_witness :
  RequestQueue.push 1 (RequestQueue.new 10 2) (mkRequest 0 1)
    = Done (RequestQueue.mk 10 1 [[mkRequest 0 1]; []]) ∧
  ∃ v v', RequestQueue.group (RequestQueue.new 10 2) 0 = Done v ∧
          RequestQueue.group (RequestQueue.mk 10 1 [[mkRequest 0 1]; []]) 0
            = Done v' ∧
          v' ≡ₚ mkRequest 0 1 :: v ∧
          RequestQueue.size (RequestQueue.mk 10 1 [[mkRequest 0 1]; []])
            = wrap (RequestQueue.size (RequestQueue.new 10 2) + 1).
Proof.
  split; [reflexivity|].
  exact (push_adds_request 1 (RequestQueue.new 10 2) (mkRequest 0 1) _ eq_refl).
Defined.

(** X3. A pop that returns has removed from the vector of its group the
    request that [top] returned just before, and nothing else: the old
    vector is a permutation of that request with the new vector.  [size]
    has shrunk by one modulo 2^32.  This holds beyond 2^31 elements too. *)
Theorem pop_removes_top fuel q g q' :
  RequestQueue.pop fuel q g = Done q' →
  ∃ t v v', RequestQueue.top q g = Done t ∧
            RequestQueue.group q g = Done v ∧
            RequestQueue.group q' g = Done v' ∧
            v ≡ₚ t :: v' ∧
            RequestQueue.size q' = wrap (RequestQueue.size q - 1).
Proof.
  intros (v & x & v' & Hv & Hne & Hx & Hv' & ->)%pop_Done.
  pose proof (vget_Some_range _ _ _ Hx) as Hr.
  destruct (vget_in_range v 0) as [t Ht]; [lia|].
  exists t, v, v'. split_and!; [|done| | |done].
  - unfold RequestQueue.top. rewrite Hv. simpl. by apply vat_Done.
  - apply group_Done in Hv. by apply (group_vset_eq _ _ _ _ v).
  - rewrite (heapifyDown_Permutation _ _ _ _ Hv').
    by apply replace_root_Permutation.
Qed.

Lemma pop_removes_top_witness :
  RequestQueue.pop 2 (RequestQueue.mk 10 2 [[mkRequest 0 3; mkRequest 0 1]; []]) 0
    = Done (RequestQueue.mk 10 1 [[mkRequest 0 1]; []]) ∧
  ∃ t v v',
    RequestQueue.top (RequestQueue.mk 10 2 [[mkRequest 0 3; mkRequest 0 1]; []]) 0
      = Done t ∧
    RequestQueue.group (RequestQueue.mk 10 2 [[mkRequest 0 3; mkRequest 0 1]; []]) 0
      = Done v ∧
    RequestQueue.group (RequestQueue.mk 10 1 [[mkRequest 0 1]; []]) 0 = Done v' ∧
    v ≡ₚ t :: v' ∧
    RequestQueue.size (RequestQueue.mk 10 1 [[mkRequest 0 1]; []])
      = wrap (RequestQueue.size
                (RequestQueue.mk 10 2 [[mkRequest 0 3; mkRequest 0 1]; []]) - 1).
Proof.
  split; [reflexivity|].
  exact (pop_removes_top 2
           (RequestQueue.mk 10 2 [[mkRequest 0 3; mkRequest 0 1]; []]) 0 _ eq_refl).
Defined.

(** ** What the queue operations require *)

(** X4. [top] and [pop] require a group that exists and is not empty:
    [top] returns exactly when [isEmpty] answers false, a [pop] that
    returns was applied where [isEmpty] answers false, and wherever
    [isEmpty] does not answer false (the group is empty or does not
    exist) both are undefined, whatever the recursion budget. *)
Theorem top_and_pop_need_a_request q g :
  ((∃ t, RequestQueue.top q g = Done t) ↔
   RequestQueue.isEmpty q g = Done false) ∧
  (∀ fuel q', RequestQueue.pop fuel q g = Done q' →
              RequestQueue.isEmpty q g = Done false) ∧
  (RequestQueue.isEmpty q g ≠ Done false →
   RequestQueue.top q g = Undefined ∧
   ∀ fuel, RequestQueue.pop fuel q g = Undefined).
Proof.
  unfold RequestQueue.top, RequestQueue.isEmpty, RequestQueue.pop.
  destruct (RequestQueue.group q g) as [v| |] eqn:Hv.
  - destruct v as [|x v].
    + split_and!.
      * split; [by intros [t Ht]|done].
      * by intros fuel q'.
      * done.
    + split_and!; [|done|done].
      split; [done|]. intros _. by exists x.
  - split_and!; [|done|done]. split; [by intros [t Ht]|done].
  - by apply vat_not_OutOfFuel in Hv.
Qed.

(** X5. The constructor builds a queue of size 0 in which the groups 0 to
    [numOfGroups - 1] exist and are empty and no other group exists; the
    new queue is full exactly when its capacity is 0. *)
Theorem new_queue_is_empty capacity numOfGroups :
  RequestQueue.size (RequestQueue.new capacity numOfGroups) = 0 ∧
  (∀ g, 0 <= g < numOfGroups →
        RequestQueue.isEmpty (RequestQueue.new capacity numOfGroups) g
        = Done true) ∧
  (∀ g, ¬ (0 <= g < numOfGroups) →
        RequestQueue.isEmpty (RequestQueue.new capacity numOfGroups) g
        = Undefined) ∧
  (RequestQueue.isFull (RequestQueue.new capacity numOfGroups) = true ↔
   capacity = 0).
Proof.
  split_and!.
  - done.
  - intros g Hg. unfold RequestQueue.isEmpty, RequestQueue.group. simpl.
    destruct (vget_in_range (RequestQueue.initializeQueues numOfGroups) g)
      as [v Hv]; [rewrite vsize_initializeQueues; lia|].
    pose proof (vget_initializeQueues _ _ _ Hv) as ->.
    by rewrite (proj2 (vat_Done _ _ _) Hv).
  - intros g Hg. unfold RequestQueue.isEmpty, RequestQueue.group, vat. simpl.
    rewrite vget_out_of_range; [done|].
    rewrite initializeQueues_spec. unfold vsize. rewrite length_replicate. lia.
  - unfold RequestQueue.isFull. simpl. rewrite bool_decide_eq_true. lia.
Qed.

(** ** Sifting a heap *)

(** X6. The sift procedures leave a max-heap as it is: on a max-heap
    [heapifyUp] from any position of the vector, and [heapifyDown] from
    any index whose children do not overflow, return the vector unchanged
    at their first call. *)
Theorem sift_keeps_a_heap fuel v index :
  max_heap v → 0 <= index →
  (index < vsize v → vsize v <= UINT_MODULUS →
   heapifyUp (S fuel) v index = Done v) ∧
  (vsize v < SAFE_HEAP_SIZE → index < SAFE_HEAP_SIZE - 1 →
   heapifyDown (S fuel) v index = Done v).
Proof.
  intros Hheap%heap_ordered_max_heap Hi. split.
  - intros Hlt Hsize. simpl. destruct (decide (index = 0)); [done|].
    assert (wrap (index - 1) = index - 1) as -> by zlia.
    destruct (vget_in_range v ((index - 1) / 2)) as [p Hp]; [zlia|].
    destruct (vget_in_range v index) as [c Hc]; [lia|].
    rewrite (proj2 (vat_Done _ _ _) Hp), (proj2 (vat_Done _ _ _) Hc). simpl.
    specialize (Hheap index ltac:(lia)).
    rewrite (ty_vget _ _ _ Hp), (ty_vget _ _ _ Hc) in Hheap.
    unfold Request_lt. by rewrite bool_decide_eq_false_2 by lia.
  - intros Hsize Hidx. unfold SAFE_HEAP_SIZE in *. simpl.
    assert (wrap (2 * index + 1) = 2 * index + 1) as -> by zlia.
    assert (wrap (2 * index + 2) = 2 * index + 2) as -> by zlia.
    destruct (decide (vsize v <= index)) as [Hout|Hin].
    { rewrite !child_is_larger_beyond by lia. simpl.
      rewrite child_is_larger_beyond by lia. simpl.
      by rewrite decide_True. }
    rewrite child_is_larger_spec by lia. simpl.
    rewrite bool_decide_eq_false_2.
    2:{ intros [Hlt Hgt]. specialize (Hheap (2 * index + 1) ltac:(lia)).
        replace ((2 * index + 1 - 1) / 2) with index in Hheap by zlia. lia. }
    rewrite child_is_larger_spec by lia. simpl.
    rewrite bool_decide_eq_false_2.
    2:{ intros [Hlt Hgt]. specialize (Hheap (2 * index + 2) ltac:(lia)).
        replace ((2 * index + 2 - 1) / 2) with index in Hheap by zlia. lia. }
    by rewrite decide_True.
Qed.

Lemma sift_keeps_a_heap_witness :
  max_heap [mkRequest 0 3; mkRequest 0 1] ∧ 0 <= 1 ∧
  (1 < vsize [mkRequest 0 3; mkRequest 0 1] ∧
   vsize [mkRequest 0 3; mkRequest 0 1] <= UINT_MODULUS ∧
   heapifyUp 1 [mkRequest 0 3; mkRequest 0 1] 1
     = Done [mkRequest 0 3; mkRequest 0 1]) ∧
  (vsize [mkRequest 0 3; mkRequest 0 1] < SAFE_HEAP_SIZE ∧
   1 < SAFE_HEAP_SIZE - 1 ∧
   heapifyDown 1 [mkRequest 0 3; mkRequest 0 1] 1
     = Done [mkRequest 0 3; mkRequest 0 1]).
Proof.
  assert (max_heap [mkRequest 0 3; mkRequest 0 1]) as Hheap.
  { intros i c x y Hi Hc Hx Hy.
    pose proof (vget_Some_range _ _ _ Hy) as Hr. unfold vsize in Hr.
    simpl in Hr. assert (i = 0 ∧ c = 1) as [-> ->] by lia.
    injection Hx as <-. injection Hy as <-. simpl. lia. }
  assert (0 <= 1) as H0 by lia.
  assert (1 < vsize [mkRequest 0 3; mkRequest 0 1]) as H1
    by (unfold vsize; simpl; lia).
  assert (vsize [mkRequest 0 3; mkRequest 0 1] <= UINT_MODULUS) as H2
    by (unfold vsize, UINT_MODULUS; simpl; lia).
  assert (vsize [mkRequest 0 3; mkRequest 0 1] < SAFE_HEAP_SIZE) as H3
    by (unfold vsize, SAFE_HEAP_SIZE; simpl; lia).
  assert (1 < SAFE_HEAP_SIZE - 1) as H4 by (unfold SAFE_HEAP_SIZE; lia).
  destruct (sift_keeps_a_heap 0 _ 1 Hheap H0) as [Hup Hdown].
  split; [exact Hheap|]. split; [exact H0|].
  split; [split; [exact H1|]; split; [exact H2|exact (Hup H1 H2)]|].
  split; [exact H3|]. split; [exact H4|exact (Hdown H3 H4)].
Defined.

(** ** The top after a push *)

(** X7. After a push to a group whose vector is a max-heap of fewer than
    2^32 elements, [top] of that group returns the pushed request if the
    group was empty, and otherwise a request whose type is the larger of
    the type of the previous top and the type of the pushed request. *)
Theorem top_after_push fuel q request q' v :
  RequestQueue.group q (groupId request) = Done v →
  max_heap v → vsize v < UINT_MODULUS →
  RequestQueue.push fuel q request = Done q' →
  ∃ t', RequestQueue.top q' (groupId request) = Done t' ∧
        ((v = [] ∧ t' = request) ∨
         ∃ t, RequestQueue.top q (groupId request) = Done t ∧
              type t' = Z.max (type t) (type request)).
Proof.
  intros Hv Hheap%heap_ordered_max_heap Hsize
    (v0 & v' & Hv0 & Hv' & ->)%push_Done.
  rewrite Hv in Hv0. apply Done_inj in Hv0 as <-.
  pose proof (vsize_nonneg v) as Hpos.
  assert (wrap (vsize v) = vsize v) as Hwrap by zlia. rewrite Hwrap in Hv'.
  assert (heap_ordered v') as Hheap'.
  { apply (heapifyUp_Done_heap fuel (v ++ [request]) (vsize v)); try done.
    - rewrite vsize_snoc. lia.
    - rewrite vsize_snoc. unfold UINT_MODULUS in *. lia.
    - by apply ordered_but_above_snoc. }
  assert (v' ≡ₚ request :: v) as Hperm.
  { rewrite (heapifyUp_Permutation _ _ _ _ Hv').
    apply (Permutation_app_comm v [request]). }
  assert (vsize v' = vsize v + 1) as Hsize'.
  { unfold vsize. rewrite (Permutation_length Hperm). simpl. lia. }
  destruct (vget_in_range v' 0) as [t' Ht']; [lia|].
  assert (RequestQueue.group
            (RequestQueue.mk (RequestQueue.capacity q)
               (wrap (RequestQueue.currentSize q + 1))
               (vset (RequestQueue.allRequests q) (groupId request) v'))
            (groupId request) = Done v') as Hg'.
  { apply group_Done in Hv. by apply (group_vset_eq _ _ _ _ v). }
  exists t'. split.
  { unfold RequestQueue.top. rewrite Hg'. simpl. by apply vat_Done. }
  assert (t' ∈ v') as Hin.
  { rewrite vget_lookup, decide_True in Ht' by lia.
    by apply list_elem_of_lookup_2 in Ht'. }
  assert (type request <= type t') as Hge.
  { apply (heap_root_is_max v'); [done|done|]. rewrite Hperm. by left. }
  rewrite Hperm in Hin. apply elem_of_cons in Hin as [->|Hin].
  - destruct v as [|t v]; [by left|]. right. exists t.
    split; [unfold RequestQueue.top; by rewrite Hv|].
    assert (type t <= type request); [|lia].
    apply (heap_root_is_max v'); [done|done|]. rewrite Hperm. right. by left.
  - right. destruct v as [|t v]; [by apply elem_of_nil in Hin|]. exists t.
    split; [unfold RequestQueue.top; by rewrite Hv|].
    assert (type t' <= type t) by (by apply (heap_root_is_max (t :: v))).
    assert (type t <= type t'); [|lia].
    apply (heap_root_is_max v'); [done|done|]. rewrite Hperm. right. by left.
Qed.

Lemma top_after_push_witness :
  RequestQueue.group (RequestQueue.new 10 2) 0 = Done [] ∧
  max_heap [] ∧ vsize (@nil Request) < UINT_MODULUS ∧
  RequestQueue.push 1 (RequestQueue.new 10 2) (mkRequest 0 1)
    = Done (RequestQueue.mk 10 1 [[mkRequest 0 1]; []]) ∧
  ∃ t', RequestQueue.top (RequestQueue.mk 10 1 [[mkRequest 0 1]; []]) 0
          = Done t' ∧
        ((@nil Request = [] ∧ t' = mkRequest 0 1) ∨
         ∃ t, RequestQueue.top (RequestQueue.new 10 2) 0 = Done t ∧
              type t' = Z.max (type t) (type (mkRequest 0 1))).
Proof.
  assert (max_heap []) as Hheap
    by (intros i c x y _ _ Hx; by rewrite vget_nil in Hx).
  assert (vsize (@nil Request) < UINT_MODULUS) as Hsize
    by (unfold vsize, UINT_MODULUS; simpl; lia).
  split; [reflexivity|]. split; [exact Hheap|]. split; [exact Hsize|].
  split; [reflexivity|].
  exact (top_after_push 1 (RequestQueue.new 10 2) (mkRequest 0 1) _ []
           eq_refl Hheap Hsize eq_refl).
Defined.

(** ** A worker left alone with its group *)

Lemma vsize_nonempty {A} (v : list A) : v ≠ [] → 1 <= vsize v.
Proof.
  destruct v as [|x v]; [done|]. intros _. rewrite vsize_cons.
  pose proof (vsize_nonneg v). lia.
Qed.

(** One remove-max on a heap of at most 2^31 requests. *)
Lemma remove_max_step fuel q g v :
  RequestQueue.group q g = Done v → v ≠ [] → heap_ordered v →
  vsize v <= SAFE_HEAP_SIZE → (Z.to_nat (vsize v) <= fuel)%nat →
  ∃ t q' v', remove_max fuel q g = Done (t, q') ∧
             RequestQueue.pop fuel q g = Done q' ∧
             RequestQueue.group q' g = Done v' ∧
             v ≡ₚ t :: v' ∧ heap_ordered v' ∧
             (∀ x, x ∈ v → type x <= type t).
Proof.
  intros Hv Hne Hheap Hsize Hfuel.
  pose proof (vsize_nonempty v Hne) as Hpos.
  destruct (pop_returns fuel q g v Hv Hne Hsize Hfuel) as [q' Hq'].
  pose proof Hq' as Hpop.
  apply pop_Done in Hq' as (v0 & x & v' & Hv0 & _ & Hx & Hv' & ->).
  rewrite Hv in Hv0. apply Done_inj in Hv0 as <-.
  destruct (vget_in_range v 0) as [t Ht]; [lia|].
  assert (RequestQueue.top q g = Done t) as Htop.
  { unfold RequestQueue.top. rewrite Hv. simpl. by apply vat_Done. }
  eexists t, _, v'. split_and!.
  - unfold remove_max. rewrite Htop. simpl. by rewrite Hpop.
  - exact Hpop.
  - apply group_Done in Hv. by apply (group_vset_eq _ _ _ _ v).
  - rewrite (heapifyDown_Permutation _ _ _ _ Hv').
    by apply replace_root_Permutation.
  - apply (heapifyDown_Done_heap fuel (removelast (vset v 0 x)) 0);
      try done; unfold SAFE_HEAP_SIZE in *; try lia.
    + rewrite vsize_removelast, vsize_vset; [lia|].
      intros E. apply (f_equal vsize) in E. rewrite vsize_vset in E.
      unfold vsize in E at 2. simpl in E. lia.
    + by apply ordered_but_below_replace_root.
  - intros y Hy. by apply (heap_root_is_max v).
Qed.

Lemma non_increasing_cons t l :
  (∀ x, x ∈ l → type x <= type t) → non_increasing l →
  non_increasing (t :: l).
Proof.
  intros Hmax Hl [|i] [|j] a b Hij Ha Hb; simpl in *; try lia.
  - injection Ha as <-. apply Hmax. by apply list_elem_of_lookup_2 in Hb.
  - apply (Hl i j a b); [lia|done|done].
Qed.

(** The worker loop run without interference on a heap. *)
Lemma requestProcessing_alone fuel device (n : nat) : ∀ q v,
  RequestQueue.group q (dev_groupId device) = Done v →
  heap_ordered v → vsize v <= SAFE_HEAP_SIZE →
  (Z.to_nat (vsize v) <= fuel)%nat →
  ∃ q' l v',
    requestProcessing fuel device (replicate n id) (mkWorld q false)
    = Done (false, mkWorld q' false, Popped (dev_groupId device) <$> l) ∧
    RequestQueue.group q' (dev_groupId device) = Done v' ∧
    v ≡ₚ l ++ v' ∧ non_increasing l ∧
    (∀ x y, x ∈ l → y ∈ v' → type y <= type x) ∧
    length l = Nat.min n (length v).
Proof.
  induction n as [|n IH]; intros q v Hv Hheap Hsize Hfuel.
  { exists q, [], v. split_and!; try done.
    intros x y Hx. by apply elem_of_nil in Hx. }
  cbn [replicate requestProcessing]. cbv zeta.
  change (id (mkWorld q false)) with (mkWorld q false).
  unfold requestProcessing_ready at 1, RequestQueue.isEmpty. cbn [queue].
  rewrite Hv. cbn [mbind result_bind threadIsfFinished].
  destruct (decide (v = [])) as [->|Hne].
  - rewrite bool_decide_eq_true_2 by done. cbn [negb orb].
    destruct (IH q [] Hv Hheap Hsize Hfuel)
      as (q' & l & v' & Hrun & Hv' & Hp & Hs & Hle & Hl).
    exists q', l, v'. split_and!; try done. rewrite Hl. simpl. lia.
  - rewrite bool_decide_eq_false_2 by done. cbn [negb orb].
    destruct (remove_max_step fuel q _ v Hv Hne Hheap Hsize Hfuel)
      as (t & q1 & v1 & Hrm & _ & Hv1 & Hperm & Hheap1 & Hmax).
    unfold requestProcessing_body. cbn [threadIsfFinished queue].
    rewrite Hrm. cbn [mbind result_bind next after mutations].
    assert (vsize v = vsize v1 + 1) as Hsz.
    { unfold vsize. rewrite (Permutation_length Hperm). simpl. lia. }
    destruct (IH q1 v1 Hv1 Hheap1 ltac:(lia) ltac:(lia))
      as (q' & l & v' & Hrun & Hv' & Hp & Hs & Hle & Hl).
    rewrite Hrun. cbn [mbind result_bind].
    exists q', (t :: l), v'. split_and!.
    + done.
    + done.
    + rewrite Hperm, Hp. done.
    + apply non_increasing_cons; [|done].
      intros x Hx. apply Hmax. rewrite Hperm, Hp. right.
      apply elem_of_app. by left.
    + intros x y [->|Hx]%elem_of_cons Hy; [|by apply Hle].
      apply Hmax. rewrite Hperm, Hp. right. apply elem_of_app. by right.
    + change (length (t :: l)) with (S (length l)).
      rewrite Hl. unfold vsize in Hsz. lia.
Qed.

(** X8. A worker woken [n] times while no other thread touches the store
    and no shutdown is signalled serves its group in priority order: from
    a max-heap of at most 2^31 requests it takes [min n size] requests,
    their types never increasing, each at least as large as every request
    it leaves; the requests taken together with those left are the
    requests that were there. *)
Theorem worker_serves_in_priority_order fuel device n q v :
  RequestQueue.group q (dev_groupId device) = Done v →
  max_heap v → vsize v <= SAFE_HEAP_SIZE → vsize v <= Z.of_nat fuel →
  ∃ q' l v',
    requestProcessing fuel device (replicate n id) (mkWorld q false)
    = Done (false, mkWorld q' false, Popped (dev_groupId device) <$> l) ∧
    RequestQueue.group q' (dev_groupId device) = Done v' ∧
    v ≡ₚ l ++ v' ∧ non_increasing l ∧
    (∀ x y, x ∈ l → y ∈ v' → type y <= type x) ∧
    length l = Nat.min n (length v).
Proof.
  intros Hv Hheap%heap_ordered_max_heap Hsize Hfuel.
  apply requestProcessing_alone; [done|done|done|lia].
Qed.

Lemma max_heap_two : max_heap [mkRequest 0 3; mkRequest 0 1].
Proof.
  intros i c x y Hi Hc Hx Hy.
  pose proof (vget_Some_range _ _ _ Hy) as Hr. unfold vsize in Hr.
  simpl in Hr. assert (i = 0 ∧ c = 1) as [-> ->] by lia.
  injection Hx as <-. injection Hy as <-. simpl. lia.
Qed.

Lemma worker_serves_in_priority_order_witness :
  let q := RequestQueue.mk 10 2 [[mkRequest 0 3; mkRequest 0 1]; []] in
  let v := [mkRequest 0 3; mkRequest 0 1] in
  RequestQueue.group q (dev_groupId (mkDevice 0 0)) = Done v ∧
  max_heap v ∧ vsize v <= SAFE_HEAP_SIZE ∧ vsize v <= Z.of_nat 5 ∧
  ∃ q' l v',
    requestProcessing 5 (mkDevice 0 0) (replicate 3 id) (mkWorld q false)
    = Done (false, mkWorld q' false, Popped 0 <$> l) ∧
    RequestQueue.group q' 0 = Done v' ∧
    v ≡ₚ l ++ v' ∧ non_increasing l ∧
    (∀ x y, x ∈ l → y ∈ v' → type y <= type x) ∧
    length l = Nat.min 3 (length v).
Proof.
  intros q v.
  assert (vsize v <= SAFE_HEAP_SIZE) as H1
    by (unfold vsize, SAFE_HEAP_SIZE; simpl; lia).
  assert (vsize v <= Z.of_nat 5) as H2 by (unfold vsize; simpl; lia).
  split; [reflexivity|]. split; [exact max_heap_two|].
  split; [exact H1|]. split; [exact H2|].
  exact (worker_serves_in_priority_order 5 (mkDevice 0 0) 3 q v eq_refl
           max_heap_two H1 H2).
Defined.

(** ** The wait predicates guard the store *)

Lemma group_in_range capacity numOfGroups q g v :
  counters_ok capacity numOfGroups q →
  RequestQueue.group q g = Done v → 0 <= g < numOfGroups.
Proof.
  intros (_ & Hng & _) Hv%group_Done%vget_Some_range. lia.
Qed.

Lemma isEmpty_false q g :
  RequestQueue.isEmpty q g = Done false →
  ∃ v, RequestQueue.group q g = Done v ∧ v ≠ [].
Proof.
  unfold RequestQueue.isEmpty.
  intros (v & Hv & H)%bind_Done. exists v. split; [done|].
  apply Done_inj in H. by apply bool_decide_eq_false in H.
Qed.

Lemma requestProcessing_ready_running device w :
  requestProcessing_ready device w = Done true →
  threadIsfFinished w = false →
  RequestQueue.isEmpty (queue w) (dev_groupId device) = Done false.
Proof.
  unfold requestProcessing_ready. intros (b & Hb & H)%bind_Done Hflag.
  rewrite Hflag, orb_false_r in H. apply Done_inj in H.
  rewrite Hb. f_equal. by destruct b.
Qed.

(** X9. The predicate of the worker's wait guards the pop: in a state the
    protocol can reach in a queue of capacity at most 2^31, a worker that
    returns from its wait with no shutdown signalled takes a request of
    its own group, a group that exists, whose type is at least the type
    of every request of the group; it leaves the queue in a state the
    protocol can reach, with one request less. *)
Theorem worker_pass_under_wait capacity numOfGroups fuel device w v :
  is_uint capacity → is_uint numOfGroups → capacity <= SAFE_HEAP_SIZE →
  reachable capacity numOfGroups (queue w) →
  requestProcessing_ready device w = Done true →
  threadIsfFinished w = false →
  RequestQueue.group (queue w) (dev_groupId device) = Done v →
  capacity <= Z.of_nat fuel →
  ∃ t q',
    requestProcessing_body fuel device w
    = Done (mkPass Continue (mkWorld q' false)
                   [Popped (dev_groupId device) t]) ∧
    t ∈ v ∧ (∀ x, x ∈ v → type x <= type t) ∧
    0 <= dev_groupId device < numOfGroups ∧
    reachable capacity numOfGroups q' ∧
    RequestQueue.size q' = RequestQueue.size (queue w) - 1.
Proof.
  intros Hc Hn Hsafe Hreach Hready Hflag Hv Hfuel.
  pose proof (requestProcessing_ready_running _ _ Hready Hflag) as Hempty.
  destruct (isEmpty_false _ _ Hempty) as (v0 & Hv0 & Hne).
  rewrite Hv in Hv0. apply Done_inj in Hv0 as <-.
  pose proof (reachable_counters_ok _ _ _ Hc Hn Hreach) as Hcount.
  pose proof (counters_ok_groups_within _ _ _ Hcount _ _ Hv) as Hsize.
  pose proof (reachable_groups_ordered _ _ _ Hc Hn Hsafe Hreach _ _ Hv)
    as Hheap.
  pose proof (group_in_range _ _ _ _ _ Hcount Hv) as Hg.
  destruct (remove_max_step fuel (queue w) _ v Hv Hne Hheap ltac:(lia)
              ltac:(lia))
    as (t & q' & v' & Hrm & Hpop & Hv' & Hperm & Hheap' & Hmax).
  exists t, q'. split_and!.
  - unfold requestProcessing_body. rewrite Hflag, Hrm. done.
  - rewrite Hperm. by left.
  - done.
  - lia.
  - lia.
  - by apply (reachable_pop _ _ fuel (queue w) (dev_groupId device)).
  - pose proof (vsize_nonempty v Hne) as Hpos.
    destruct Hcount as (_ & _ & Hsum & Hrange).
    pose proof (total_size_vget _ _ _ (proj1 (group_Done _ _ _) Hv)) as Hle.
    apply pop_Done in Hpop as (? & ? & ? & _ & _ & _ & _ & ->).
    unfold RequestQueue.size. simpl. unfold is_uint in Hc.
    assert (0 < RequestQueue.currentSize (queue w) < UINT_MODULUS) by lia.
    zlia.
Qed.

Lemma worker_pass_under_wait_witness :
  let w := mkWorld (RequestQueue.mk 10 1 [[mkRequest 0 1]; []]) false in
  is_uint 10 ∧ is_uint 2 ∧ 10 <= SAFE_HEAP_SIZE ∧
  reachable 10 2 (queue w) ∧
  requestProcessing_ready (mkDevice 0 0) w = Done true ∧
  threadIsfFinished w = false ∧
  RequestQueue.group (queue w) 0 = Done [mkRequest 0 1] ∧
  10 <= Z.of_nat 10 ∧
  ∃ t q',
    requestProcessing_body 10 (mkDevice 0 0) w
    = Done (mkPass Continue (mkWorld q' false) [Popped 0 t]) ∧
    t ∈ [mkRequest 0 1] ∧ (∀ x, x ∈ [mkRequest 0 1] → type x <= type t) ∧
    0 <= 0 < 2 ∧
    reachable 10 2 q' ∧
    RequestQueue.size q' = RequestQueue.size (queue w) - 1.
Proof.
  intros w.
  assert (is_uint 10) as H10 by (unfold is_uint, UINT_MODULUS; lia).
  assert (is_uint 2) as H2 by (unfold is_uint, UINT_MODULUS; lia).
  assert (10 <= SAFE_HEAP_SIZE) as Hs by (unfold SAFE_HEAP_SIZE; lia).
  assert (10 <= Z.of_nat 10) as Hf by lia.
  split; [exact H10|]. split; [exact H2|]. split; [exact Hs|].
  split; [exact reachable_one_push|]. split; [reflexivity|].
  split; [reflexivity|]. split; [reflexivity|]. split; [exact Hf|].
  exact (worker_pass_under_wait 10 2 10 (mkDevice 0 0) w [mkRequest 0 1]
           H10 H2 Hs reachable_one_push eq_refl eq_refl eq_refl Hf).
Defined.

(** X10. The predicate of the generator's wait guards the push: in a state
    the protocol can reach, a generator that returns from its wait with no
    shutdown signalled, started with the number of groups of the queue,
    builds a request of an existing group with a type from 1 to 3 and
    pushes it; it leaves the queue in a state the protocol can reach, with
    one request more and not above its capacity.  The draws are assumed to
    lie in their ranges. *)
Theorem generator_pass_under_wait {rng : Type}
    (draw : Z → Z → rng → Z * rng) capacity numOfGroups fuel w gen :
  is_uint capacity → 1 <= numOfGroups <= INT_MAX →
  reachable capacity numOfGroups (queue w) →
  generateRequest_ready w = true → threadIsfFinished w = false →
  (∀ start end_ g, start <= end_ → start <= (draw start end_ g).1 <= end_) →
  capacity <= Z.of_nat fuel →
  ∃ request gen' q',
    generateRequest_body draw fuel numOfGroups w gen
    = Done (mkPass Continue (mkWorld q' false) [Pushed request], gen') ∧
    0 <= groupId request < numOfGroups ∧ 1 <= type request <= 3 ∧
    reachable capacity numOfGroups q' ∧
    RequestQueue.size q' = RequestQueue.size (queue w) + 1 ∧
    RequestQueue.size q' <= capacity.
Proof.
  intros Hc Hn Hreach Hready Hflag Hdraw Hfuel.
  assert (is_uint numOfGroups) as Hn'
    by (unfold is_uint, INT_MAX, UINT_MODULUS in *; lia).
  pose proof (reachable_counters_ok _ _ _ Hc Hn' Hreach) as Hcount.
  assert (RequestQueue.isFull (queue w) = false) as Hfull.
  { unfold generateRequest_ready in Hready.
    rewrite Hflag, orb_false_r in Hready. by apply negb_true_iff in Hready. }
  unfold generateRequest_body, new_request, int_sub, getRandomNumber.
  rewrite Hflag.
  rewrite decide_True by (unfold is_int, INT_MIN, INT_MAX in *; lia).
  cbn [mbind result_bind]. rewrite decide_True by lia.
  pose proof (Hdraw 0 (numOfGroups - 1) gen ltac:(lia)) as Hg.
  destruct (draw 0 (numOfGroups - 1) gen) as [g gen1]. simpl in Hg.
  cbn [mbind result_bind].
  unfold MIN_REQUEST_TYPE, MAX_REQUEST_TYPE. rewrite decide_True by lia.
  pose proof (Hdraw 1 3 gen1 ltac:(lia)) as Ht.
  destruct (draw 1 3 gen1) as [t gen2]. simpl in Ht.
  cbn [mbind result_bind].
  destruct Hcount as (Hcap & Hng & Hsum & Hrange).
  destruct (vget_in_range (RequestQueue.allRequests (queue w)) g)
    as [v Hv]; [lia|].
  pose proof (total_size_vget _ _ _ Hv) as Hle.
  apply bool_decide_eq_false in Hfull.
  destruct (push_returns fuel (queue w) (mkRequest g t) v) as [q' Hq'];
    [by apply group_Done|unfold is_uint in Hc; lia|lia|].
  rewrite Hq'. cbn [mbind result_bind].
  exists (mkRequest g t), gen2, q'. split_and!; simpl; try lia.
  - done.
  - by apply (reachable_push _ _ fuel (queue w) (mkRequest g t));
      [|apply bool_decide_eq_false|].
  - apply push_Done in Hq' as (? & ? & _ & _ & ->).
    unfold RequestQueue.size. simpl. unfold is_uint in Hc. zlia.
  - apply push_Done in Hq' as (? & ? & _ & _ & ->).
    unfold RequestQueue.size. simpl. unfold is_uint in Hc. zlia.
Qed.

Lemma generator_pass_under_wait_witness :
  let draw := λ (start end_ : Z) (g : unit), (start, g) in
  let w := mkWorld (RequestQueue.mk 10 1 [[mkRequest 0 1]; []]) false in
  is_uint 10 ∧ 1 <= 2 <= INT_MAX ∧
  reachable 10 2 (queue w) ∧
  generateRequest_ready w = true ∧ threadIsfFinished w = false ∧
  (∀ start end_ g, start <= end_ → start <= (draw start end_ g).1 <= end_) ∧
  10 <= Z.of_nat 10 ∧
  ∃ request gen' q',
    generateRequest_body draw 10 2 w ()
    = Done (mkPass Continue (mkWorld q' false) [Pushed request], gen') ∧
    0 <= groupId request < 2 ∧ 1 <= type request <= 3 ∧
    reachable 10 2 q' ∧
    RequestQueue.size q' = RequestQueue.size (queue w) + 1 ∧
    RequestQueue.size q' <= 10.
Proof.
  intros draw w.
  assert (is_uint 10) as H10 by (unfold is_uint, UINT_MODULUS; lia).
  assert (1 <= 2 <= INT_MAX) as H2 by (unfold INT_MAX; lia).
  assert (∀ start end_ g, start <= end_ →
            start <= (draw start end_ g).1 <= end_) as Hdraw.
  { intros start end_ g H. simpl. lia. }
  assert (10 <= Z.of_nat 10) as Hf by lia.
  split; [exact H10|]. split; [exact H2|].
  split; [exact reachable_one_push|]. split; [reflexivity|].
  split; [reflexivity|]. split; [exact Hdraw|]. split; [exact Hf|].
  exact (generator_pass_under_wait draw 10 2 10 w () H10 H2
           reachable_one_push eq_refl eq_refl Hdraw Hf).
Defined.

(** ** The threads keep the queue within the protocol *)

Lemma requestProcessing_reachable capacity numOfGroups fuel device others :
  is_uint capacity → is_uint numOfGroups →
  (∀ change, change ∈ others → ∀ w,
     reachable capacity numOfGroups (queue w) →
     reachable capacity numOfGroups (queue (change w))) →
  ∀ w exited w' ms,
    reachable capacity numOfGroups (queue w) →
    requestProcessing fuel device others w = Done (exited, w', ms) →
    reachable capacity numOfGroups (queue w').
Proof.
  intros Hc Hn. induction others as [|change others IH];
    intros Hothers w exited w' ms Hreach Hrun.
  { simpl in Hrun. by inversion Hrun; subst. }
  cbn [requestProcessing] in Hrun. cbv zeta in Hrun.
  assert (reachable capacity numOfGroups (queue (change w))) as Hreach1.
  { apply Hothers; [by left|done]. }
  assert (∀ change', change' ∈ others → ∀ w,
            reachable capacity numOfGroups (queue w) →
            reachable capacity numOfGroups (queue (change' w))) as Hrest.
  { intros change' Hin. apply Hothers. by right. }
  apply bind_Done in Hrun as (ready & Hready & Hrun).
  destruct ready; cbn [negb] in Hrun; [|by apply (IH Hrest _ _ _ _ Hreach1 Hrun)].
  apply bind_Done in Hrun as (p & Hp & Hrun).
  unfold requestProcessing_body in Hp.
  destruct (threadIsfFinished (change w)) eqn:Hflag.
  { apply Done_inj in Hp as <-. simpl in Hrun. by inversion Hrun; subst. }
  apply bind_Done in Hp as ([t q'] & Hrm & Hp). apply Done_inj in Hp as <-.
  cbn [next after mutations] in Hrun.
  apply bind_Done in Hrun as ([[exited1 w1] ms1] & Hrun & Heq).
  apply Done_inj in Heq. inversion Heq; subst.
  apply (IH Hrest (mkWorld q' false) exited w' ms1); [|done].
  unfold remove_max in Hrm.
  apply bind_Done in Hrm as (t0 & _ & Hrm).
  apply bind_Done in Hrm as (q0 & Hpop & Hrm).
  apply Done_inj in Hrm. inversion Hrm; subst.
  pose proof (requestProcessing_ready_running _ _ Hready Hflag) as Hempty.
  destruct (isEmpty_false _ _ Hempty) as (v & Hv & _).
  pose proof (group_in_range _ _ _ _ _
                (reachable_counters_ok _ _ _ Hc Hn Hreach1) Hv) as Hg.
  simpl. by apply (reachable_pop _ _ fuel (queue (change w))
                     (dev_groupId device)).
Qed.

Lemma generateRequest_reachable {rng : Type} (draw : Z → Z → rng → Z * rng)
    capacity numOfGroups fuel numGroups others :
  (∀ change, change ∈ others → ∀ w,
     reachable capacity numOfGroups (queue w) →
     reachable capacity numOfGroups (queue (change w))) →
  ∀ w gen exited w' ms gen',
    reachable capacity numOfGroups (queue w) →
    generateRequest draw fuel numGroups others w gen
    = Done (exited, w', ms, gen') →
    reachable capacity numOfGroups (queue w').
Proof.
  induction others as [|change others IH];
    intros Hothers w gen exited w' ms gen' Hreach Hrun.
  { simpl in Hrun. by inversion Hrun; subst. }
  cbn [generateRequest] in Hrun. cbv zeta in Hrun.
  assert (reachable capacity numOfGroups (queue (change w))) as Hreach1.
  { apply Hothers; [by left|done]. }
  assert (∀ change', change' ∈ others → ∀ w,
            reachable capacity numOfGroups (queue w) →
            reachable capacity numOfGroups (queue (change' w))) as Hrest.
  { intros change' Hin. apply Hothers. by right. }
  destruct (generateRequest_ready (change w)) eqn:Hready;
    cbn [negb] in Hrun; [|by apply (IH Hrest _ _ _ _ _ _ Hreach1 Hrun)].
  apply bind_Done in Hrun as ([p gen1] & Hp & Hrun).
  unfold generateRequest_body in Hp.
  destruct (threadIsfFinished (change w)) eqn:Hflag.
  { apply Done_inj in Hp. inversion Hp; subst. simpl in Hrun.
    by inversion Hrun; subst. }
  apply bind_Done in Hp as ([r gen2] & _ & Hp).
  apply bind_Done in Hp as (q' & Hpush & Hp).
  apply Done_inj in Hp. inversion Hp; subst.
  cbn [next after mutations] in Hrun.
  apply bind_Done in Hrun as ([[[exited1 w1] ms1] gen3] & Hrun & Heq).
  apply Done_inj in Heq. inversion Heq; subst.
  apply (IH Hrest (mkWorld q' false) gen1 exited w' ms1 gen'); [|done].
  simpl. apply (reachable_push _ _ fuel (queue (change w)) r); [done| |done].
  unfold generateRequest_ready in Hready.
  rewrite Hflag, orb_false_r in Hready. by apply negb_true_iff in Hready.
Qed.

(** X11. The threads keep the queue within the protocol: if every change
    made by the other threads leads from a state the protocol can reach
    to such a state, then so does a whole run of a worker thread and a
    whole run of the generator thread, and at its end the size of the
    queue is the number of requests stored and does not exceed the
    capacity. *)
Theorem threads_keep_the_protocol capacity numOfGroups fuel others w :
  is_uint capacity → is_uint numOfGroups →
  (∀ change, change ∈ others → ∀ w,
     reachable capacity numOfGroups (queue w) →
     reachable capacity numOfGroups (queue (change w))) →
  reachable capacity numOfGroups (queue w) →
  (∀ device exited w' ms,
     requestProcessing fuel device others w = Done (exited, w', ms) →
     reachable capacity numOfGroups (queue w') ∧
     RequestQueue.size (queue w')
       = total_size (RequestQueue.allRequests (queue w')) ∧
     0 <= RequestQueue.size (queue w') <= capacity) ∧
  (∀ (rng : Type) (draw : Z → Z → rng → Z * rng) numGroups gen
     exited w' ms gen',
     generateRequest draw fuel numGroups others w gen
       = Done (exited, w', ms, gen') →
     reachable capacity numOfGroups (queue w') ∧
     RequestQueue.size (queue w')
       = total_size (RequestQueue.allRequests (queue w')) ∧
     0 <= RequestQueue.size (queue w') <= capacity).
Proof.
  intros Hc Hn Hothers Hreach.
  assert (∀ q, reachable capacity numOfGroups q →
            reachable capacity numOfGroups q ∧
            RequestQueue.size q = total_size (RequestQueue.allRequests q) ∧
            0 <= RequestQueue.size q <= capacity) as Hinv.
  { intros q Hq. split; [done|].
    by destruct (reachable_counters_ok _ _ _ Hc Hn Hq) as (_ & _ & ? & ?). }
  split.
  - intros device exited w' ms Hrun. apply Hinv.
    by apply (requestProcessing_reachable _ _ fuel device others Hc Hn
                Hothers w exited w' ms).
  - intros rng draw numGroups gen exited w' ms gen' Hrun. apply Hinv.
    by apply (generateRequest_reachable draw _ _ fuel numGroups others
                Hothers w gen exited w' ms gen').
Qed.

Lemma threads_keep_the_protocol_witness :
  let w := mkWorld (RequestQueue.mk 10 1 [[mkRequest 0 1]; []]) false in
  let others := [id; signalHandler] in
  is_uint 10 ∧ is_uint 2 ∧
  (∀ change, change ∈ others → ∀ w,
     reachable 10 2 (queue w) → reachable 10 2 (queue (change w))) ∧
  reachable 10 2 (queue w) ∧
  requestProcessing 5 (mkDevice 0 0) others w
    = Done (true, mkWorld (RequestQueue.mk 10 0 [[]; []]) true,
            [Popped 0 (mkRequest 0 1)]) ∧
  reachable 10 2 (RequestQueue.mk 10 0 [[]; []]).
Proof.
  intros w others.
  assert (is_uint 10) as H10 by (unfold is_uint, UINT_MODULUS; lia).
  assert (is_uint 2) as H2 by (unfold is_uint, UINT_MODULUS; lia).
  assert (∀ change, change ∈ others → ∀ w,
            reachable 10 2 (queue w) → reachable 10 2 (queue (change w)))
    as Hothers.
  { intros change Hin w0 Hw0.
    apply elem_of_cons in Hin as [->|Hin]; [exact Hw0|].
    apply list_elem_of_singleton in Hin as ->. exact Hw0. }
  assert (requestProcessing 5 (mkDevice 0 0) others w
          = Done (true, mkWorld (RequestQueue.mk 10 0 [[]; []]) true,
                  [Popped 0 (mkRequest 0 1)])) as Hrun by reflexivity.
  split; [exact H10|]. split; [exact H2|]. split; [exact Hothers|].
  split; [exact reachable_one_push|]. split; [exact Hrun|].
  exact (proj1 (proj1 (threads_keep_the_protocol 10 2 5 others w H10 H2
                         Hothers reachable_one_push) _ _ _ _ Hrun)).
Defined.

(** ** Shutdown *)

(** X12. The signal handler sets the flag and leaves the queue alone;
    setting it twice is setting it once.  Once it has run, the predicates
    of both waits hold whatever the queue holds, so a worker blocked on an
    empty group and a generator blocked on a full queue are released, and
    each thread leaves its loop at that wake-up without a mutation. *)
Theorem shutdown_releases_the_threads fuel device numGroups others w empty :
  RequestQueue.isEmpty (queue w) (dev_groupId device) = Done empty →
  queue (signalHandler w) = queue w ∧
  signalHandler (signalHandler w) = signalHandler w ∧
  requestProcessing_ready device (signalHandler w) = Done true ∧
  generateRequest_ready (signalHandler w) = true ∧
  requestProcessing fuel device (signalHandler :: others) w
    = Done (true, signalHandler w, []) ∧
  ∀ (rng : Type) (draw : Z → Z → rng → Z * rng) (gen : rng),
    generateRequest draw fuel numGroups (signalHandler :: others) w gen
    = Done (true, signalHandler w, [], gen).
Proof.
  intros Hempty.
  assert (requestProcessing_ready device (signalHandler w) = Done true)
    as Hready.
  { unfold requestProcessing_ready. simpl. rewrite Hempty. simpl.
    by rewrite orb_true_r. }
  assert (generateRequest_ready (signalHandler w) = true) as Hgen.
  { unfold generateRequest_ready. simpl. by rewrite orb_true_r. }
  split_and!; try done.
  - cbn [requestProcessing]. cbv zeta. by rewrite Hready.
  - intros rng draw gen. cbn [generateRequest]. cbv zeta. by rewrite Hgen.
Qed.

Lemma shutdown_releases_the_threads_witness :
  let w := mkWorld (RequestQueue.mk 0 0 [[]; []]) false in
  RequestQueue.isEmpty (queue w) (dev_groupId (mkDevice 0 0)) = Done true ∧
  requestProcessing_ready (mkDevice 0 0) w = Done false ∧
  generateRequest_ready w = false ∧
  queue (signalHandler w) = queue w ∧
  signalHandler (signalHandler w) = signalHandler w ∧
  requestProcessing_ready (mkDevice 0 0) (signalHandler w) = Done true ∧
  generateRequest_ready (signalHandler w) = true ∧
  requestProcessing 1 (mkDevice 0 0) [signalHandler] w
    = Done (true, signalHandler w, []) ∧
  ∀ (rng : Type) (draw : Z → Z → rng → Z * rng) (gen : rng),
    generateRequest draw 1 2 [signalHandler] w gen
    = Done (true, signalHandler w, [], gen).
Proof.
  intros w. do 3 (split; [reflexivity|]).
  exact (shutdown_releases_the_threads 1 (mkDevice 0 0) 2 [] w true eq_refl).
Defined.

(** ** Sleep times *)

(** X13. If every draw over a non-empty range lies in the range, a sleep
    time is always returned; a device sleeps between 2000 and 4000
    milliseconds and the generator between 500 and 1500, so every sleep
    of a device is longer than every sleep of the generator. *)
Theorem sleep_times_in_range {rng : Type} (draw : Z → Z → rng → Z * rng) :
  (∀ start end_ g, start <= end_ → start <= (draw start end_ g).1 <= end_) →
  (∀ gen, ∃ ms gen', getRandomSleepTime draw DeviceTime gen = Done (ms, gen') ∧
                     2000 <= ms <= 4000) ∧
  (∀ gen, ∃ ms gen', getRandomSleepTime draw GenTime gen = Done (ms, gen') ∧
                     500 <= ms <= 1500) ∧
  (∀ gen1 gen2 device_ms gen1' gen_ms gen2',
     getRandomSleepTime draw DeviceTime gen1 = Done (device_ms, gen1') →
     getRandomSleepTime draw GenTime gen2 = Done (gen_ms, gen2') →
     gen_ms < device_ms).
Proof.
  intros Hdraw.
  assert (∀ gen, ∃ ms gen',
            getRandomSleepTime draw DeviceTime gen = Done (ms, gen') ∧
            2000 <= ms <= 4000) as Hdev.
  { intros gen. unfold getRandomSleepTime, getRandomNumber,
      MIN_DEVICE_SLEEP_TIME, MAX_DEVICE_SLEEP_TIME.
    rewrite decide_True by lia. pose proof (Hdraw 2000 4000 gen ltac:(lia)).
    destruct (draw 2000 4000 gen) as [ms gen']. by exists ms, gen'. }
  assert (∀ gen, ∃ ms gen',
            getRandomSleepTime draw GenTime gen = Done (ms, gen') ∧
            500 <= ms <= 1500) as Hgen.
  { intros gen. unfold getRandomSleepTime, getRandomNumber,
      MIN_GEN_SLEEP_TIME, MAX_GEN_SLEEP_TIME.
    rewrite decide_True by lia. pose proof (Hdraw 500 1500 gen ltac:(lia)).
    destruct (draw 500 1500 gen) as [ms gen']. by exists ms, gen'. }
  split_and!; [done|done|].
  intros gen1 gen2 d gen1' g gen2' Hd Hg.
  destruct (Hdev gen1) as (d' & ? & Hd' & ?).
  destruct (Hgen gen2) as (g' & ? & Hg' & ?).
  rewrite Hd in Hd'. rewrite Hg in Hg'.
  apply Done_inj in Hd', Hg'. inversion Hd'; inversion Hg'; subst. lia.
Qed.

Lemma sleep_times_in_range_witness :
  let draw := λ (start end_ : Z) (g : unit), (end_, g) in
  (∀ start end_ g, start <= end_ → start <= (draw start end_ g).1 <= end_) ∧
  getRandomSleepTime draw DeviceTime () = Done (4000, ()) ∧
  getRandomSleepTime draw GenTime () = Done (1500, ()) ∧
  1500 < 4000.
Proof.
  intros draw.
  assert (∀ start end_ g, start <= end_ →
            start <= (draw start end_ g).1 <= end_) as Hdraw.
  { intros start end_ g H. simpl. lia. }
  split; [exact Hdraw|]. split; [reflexivity|]. split; [reflexivity|].
  exact (proj2 (proj2 (sleep_times_in_range draw Hdraw))
           () () 4000 () 1500 () eq_refl eq_refl).
Defined.

(** ** The size counts pushes and pops *)

Lemma run_counts fits capacity : ∀ q ops q',
  run fits q ops q' → ∀ m,
  RequestQueue.capacity q = capacity →
  total_size (RequestQueue.allRequests q) = m →
  RequestQueue.currentSize q = wrap m →
  RequestQueue.capacity q' = capacity ∧
  total_size (RequestQueue.allRequests q') = m + net_pushes ops ∧
  RequestQueue.currentSize q' = wrap (m + net_pushes ops).
Proof.
  induction 1 as [q|q o fuel q1 ops q2 _ Hop _ IH]; intros m Hcap Hsum Hsize.
  { simpl. rewrite Z.add_0_r. done. }
  destruct o as [r|g]; simpl in Hop.
  - apply push_Done in Hop as (v & v' & Hv & Hv' & ->).
    apply group_Done in Hv. apply heapifyUp_size in Hv'.
    rewrite vsize_snoc in Hv'.
    destruct (IH (m + 1)) as (? & ? & ?); simpl.
    + done.
    + rewrite (total_size_vset _ _ v) by done. lia.
    + rewrite Hsize. unfold wrap. by rewrite Zplus_mod_idemp_l.
    + cbn [net_pushes foldr]. fold (net_pushes ops).
      split_and!; [done| |].
      * lia.
      * replace (m + (net_pushes ops + 1)) with (m + 1 + net_pushes ops)
          by lia. done.
  - apply pop_Done in Hop as (v & x & v' & Hv & Hne & Hx & Hv' & ->).
    apply group_Done in Hv. apply heapifyDown_size in Hv'.
    rewrite vsize_removelast, vsize_vset in Hv'.
    2:{ intros E. apply (f_equal vsize) in E. rewrite vsize_vset in E.
        apply vget_Some_range in Hx. unfold vsize in E at 2. simpl in E. lia. }
    destruct (IH (m - 1)) as (? & ? & ?); simpl.
    + done.
    + rewrite (total_size_vset _ _ v) by done. lia.
    + rewrite Hsize. unfold wrap. by rewrite Zminus_mod_idemp_l.
    + cbn [net_pushes foldr]. fold (net_pushes ops).
      split_and!; [done| |].
      * lia.
      * replace (m + (net_pushes ops - 1)) with (m - 1 + net_pushes ops)
          by lia. done.
Qed.

(** X14. [push] and [pop] do not look at the capacity.  After any
    operations on a new queue, each one returning, the number of requests
    stored is the number of pushes less the number of pops, [size] is that
    number modulo 2^32, and the capacity is as constructed; nothing keeps
    the size below the capacity but the caller's test of [isFull]. *)
Theorem size_counts_pushes_and_pops fits capacity numOfGroups ops q' :
  run fits (RequestQueue.new capacity numOfGroups) ops q' →
  total_size (RequestQueue.allRequests q') = net_pushes ops ∧
  RequestQueue.size q' = wrap (net_pushes ops) ∧
  RequestQueue.capacity q' = capacity.
Proof.
  intros Hrun.
  destruct (run_counts fits capacity _ _ _ Hrun 0) as (Hcap & Hsum & Hsize);
    [done|apply total_size_initializeQueues|done|].
  rewrite Z.add_0_l in Hsum, Hsize. done.
Qed.

Lemma size_counts_pushes_and_pops_witness :
  let ops := [Push (mkRequest 0 1); Push (mkRequest 0 3)] in
  let q' := RequestQueue.mk 1 2 [[mkRequest 0 3; mkRequest 0 1]; []] in
  run (λ _, True) (RequestQueue.new 1 2) ops q' ∧
  total_size (RequestQueue.allRequests q') = net_pushes ops ∧
  RequestQueue.size q' = wrap (net_pushes ops) ∧
  RequestQueue.capacity q' = 1.
Proof.
  intros ops q'.
  assert (run (λ _, True) (RequestQueue.new 1 2) ops q') as Hrun.
  { eapply (run_cons _ _ _ 2); [exact I|reflexivity|].
    eapply (run_cons _ _ _ 2); [exact I|reflexivity|]. apply run_nil. }
  split; [exact Hrun|].
  exact (size_counts_pushes_and_pops (λ _, True) 1 2 ops q' Hrun).
Defined.

(** ** The devices of [main] *)

Lemma to_int_small x : 0 <= x <= INT_MAX → to_int x = x.
Proof. intros H. unfold to_int. by rewrite decide_True by lia. Qed.

Lemma filter_all {A} (P : A → Prop) `{∀ x, Decision (P x)} (l : list A) :
  (∀ x, x ∈ l → P x) → filter P l = l.
Proof.
  induction l as [|x l IH]; intros Hall; [done|].
  rewrite filter_cons_True by (apply Hall; by left).
  f_equal. apply IH. intros y Hy. apply Hall. by right.
Qed.

Lemma filter_none {A} (P : A → Prop) `{∀ x, Decision (P x)} (l : list A) :
  (∀ x, x ∈ l → ¬ P x) → filter P l = [].
Proof.
  induction l as [|x l IH]; intros Hnone; [done|].
  rewrite filter_cons_False by (apply Hnone; by left).
  apply IH. intros y Hy. apply Hnone. by right.
Qed.

(** Among the devices [f i] built for the groups [i] of [l], those of
    group [g]. *)
Lemma devices_of_group_count (f : Z → list Device) g : ∀ l,
  NoDup l →
  (∀ i d, i ∈ l → d ∈ f i → dev_groupId d = g ↔ i = g) →
  length (filter (λ d, dev_groupId d = g) (l ≫= f))
  = if decide (g ∈ l) then length (f g) else 0%nat.
Proof.
  intros l Hnd. induction Hnd as [|i l Hi Hnd IH]; intros Hgroup; [done|].
  rewrite bind_cons, filter_app, length_app, IH
    by (intros j d Hj; apply Hgroup; by right).
  destruct (decide (i = g)) as [->|Hne].
  - rewrite (decide_True (P := g ∈ g :: l)) by (by left).
    rewrite (decide_False (P := g ∈ l)) by done.
    rewrite filter_all; [lia|].
    intros d Hd. apply (Hgroup g d); [by left|done|done].
  - rewrite filter_none.
    2:{ intros d Hd E. apply (Hgroup i d) in E; [done|by left|done]. }
    simpl. destruct (decide (g ∈ l)).
    + by rewrite decide_True by (by right).
    + rewrite decide_False; [done|]. intros [?|?]%elem_of_cons; done.
Qed.

(** X15. In a system that lets the process hold [numOfGroups *
    numOfDevices] device threads, the loops of [main] start that many
    threads; with at most 2^31 groups every one of them serves a group of
    the queue, a group that exists and is empty at the start, and every
    group is served by exactly [numOfDevices] threads.  In a system that
    lets it hold fewer, the loops start as many threads as the system
    allows and the next [emplace_back] throws [std::system_error], which
    ends the program. *)
Theorem devices_cover_the_groups max_threads capacity numOfGroups
    numOfDevices :
  is_uint numOfGroups → is_uint numOfDevices →
  (numOfGroups * numOfDevices <= max_threads →
   ∃ devicesThreads,
     main_devices max_threads numOfGroups numOfDevices
       = Started devicesThreads ∧
     length devicesThreads = Z.to_nat (numOfGroups * numOfDevices) ∧
     (numOfGroups <= SAFE_HEAP_SIZE →
      (∀ d, d ∈ devicesThreads →
            0 <= dev_groupId d < numOfGroups ∧
            RequestQueue.isEmpty (RequestQueue.new capacity numOfGroups)
                                 (dev_groupId d) = Done true) ∧
      (∀ g, 0 <= g < numOfGroups →
            Z.of_nat (length (filter (λ d, dev_groupId d = g)
                                devicesThreads))
            = numOfDevices))) ∧
  (0 <= max_threads < numOfGroups * numOfDevices →
   ∃ devicesThreads device,
     main_devices max_threads numOfGroups numOfDevices
       = system_error devicesThreads device ∧
     vsize devicesThreads = max_threads).
Proof.
  intros HG HD. unfold is_uint, SAFE_HEAP_SIZE, UINT_MODULUS in *.
  assert (vsize (device_sequence numOfGroups numOfDevices)
          = numOfGroups * numOfDevices) as Hsize.
  { unfold vsize. rewrite length_device_sequence. nia. }
  split.
  - intros Hprod. exists (device_sequence numOfGroups numOfDevices).
    split_and!.
    + rewrite main_devices_start_threads.
      rewrite start_threads_Started; [done|].
      rewrite Hsize. unfold vsize. simpl. lia.
    + rewrite length_device_sequence. rewrite Z2Nat.inj_mul by lia. done.
    + intros Hle. split.
      * intros d (i & q & Hi & Hq & ->)%elem_of_device_sequence. simpl.
        rewrite to_int_small by (unfold INT_MAX; lia). split; [done|].
        unfold RequestQueue.isEmpty, RequestQueue.group. simpl.
        destruct (vget_in_range (RequestQueue.initializeQueues numOfGroups) i)
          as [v Hv]; [rewrite vsize_initializeQueues; lia|].
        pose proof (vget_initializeQueues _ _ _ Hv) as ->.
        by rewrite (proj2 (vat_Done _ _ _) Hv).
      * intros g Hg. unfold device_sequence.
        rewrite devices_of_group_count.
        -- rewrite decide_True by (apply elem_of_uint_range; lia).
           rewrite (length_bind_const _ 1%nat) by done.
           rewrite length_uint_range. lia.
        -- apply NoDup_uint_range.
        -- intros i d Hi%elem_of_uint_range
             (q & ->%list_elem_of_singleton & _)%list_elem_of_bind. simpl.
           rewrite to_int_small by (unfold INT_MAX; lia). done.
  - intros Hmax. rewrite main_devices_start_threads.
    apply start_threads_system_error. rewrite Hsize.
    unfold vsize. simpl. lia.
Qed.

Lemma devices_cover_the_groups_witness :
  is_uint 2 ∧ is_uint 3 ∧ 2 * 3 <= 8 ∧ 2 <= SAFE_HEAP_SIZE ∧
  ∃ devicesThreads,
    main_devices 8 2 3 = Started devicesThreads ∧
    length devicesThreads = Z.to_nat (2 * 3) ∧
    (2 <= SAFE_HEAP_SIZE →
     (∀ d, d ∈ devicesThreads →
           0 <= dev_groupId d < 2 ∧
           RequestQueue.isEmpty (RequestQueue.new 10 2) (dev_groupId d)
           = Done true) ∧
     (∀ g, 0 <= g < 2 →
           Z.of_nat (length (filter (λ d, dev_groupId d = g) devicesThreads))
           = 3)).
Proof.
  assert (is_uint 2) as H2 by (unfold is_uint, UINT_MODULUS; lia).
  assert (is_uint 3) as H3 by (unfold is_uint, UINT_MODULUS; lia).
  assert (2 * 3 <= 8) as H6 by lia.
  assert (2 <= SAFE_HEAP_SIZE) as Hs by (unfold SAFE_HEAP_SIZE; lia).
  destruct (devices_cover_the_groups 8 10 2 3 H2 H3) as [Hall _].
  split; [exact H2|]. split; [exact H3|]. split; [exact H6|].
  split; [exact Hs|]. exact (Hall H6).
Defined.

(** ** Within the range of [unsigned int] *)

(** Four pushes to group 0 and a pop: the third and the fourth push swap
    on the way up, the pop swaps on the way down. *)
Lemma run_within_example :
  run_within (RequestQueue.new 10 2)
    [Push (mkRequest 0 1); Push (mkRequest 0 2); Push (mkRequest 0 3);
     Push (mkRequest 0 3); Pop 0]
    (RequestQueue.mk 10 3
       [[mkRequest 0 3; mkRequest 0 1; mkRequest 0 2]; []]).
Proof.
  assert (∀ n, 0 <= n <= 4 → n <= UINT_MODULUS - 1 ∧ n <= SAFE_HEAP_SIZE)
    as Hsmall by (unfold UINT_MODULUS, SAFE_HEAP_SIZE; lia).
  eapply (run_within_cons _ _ 5); [reflexivity| |reflexivity|].
  { apply (Hsmall 0). lia. }
  eapply (run_within_cons _ _ 5); [reflexivity| |reflexivity|].
  { apply (Hsmall 1). lia. }
  eapply (run_within_cons _ _ 5); [reflexivity| |reflexivity|].
  { apply (Hsmall 2). lia. }
  eapply (run_within_cons _ _ 5); [reflexivity| |reflexivity|].
  { apply (Hsmall 3). lia. }
  eapply (run_within_cons _ _ 5); [reflexivity| |reflexivity|].
  { apply (Hsmall 4). lia. }
  apply run_within_nil.
Qed.

(** X16. After any sequence of pushes and pops on a new queue, each one
    returning, in which every push is applied to a vector of fewer than
    2^32 elements and every pop to a vector of at most 2^31, whatever the
    capacity and the other vectors, [top] of a group that is not empty
    returns a request of the group whose type is at least the type of
    every request stored in the group; and if the vector has at most 2^31
    elements the pop that follows returns, so that the two together
    remove a request of the largest type. *)
Theorem top_is_maximum capacity numOfGroups ops q g v :
  run_within (RequestQueue.new capacity numOfGroups) ops q →
  RequestQueue.group q g = Done v → v ≠ [] →
  ∃ t, RequestQueue.top q g = Done t ∧ t ∈ v ∧
       (∀ x, x ∈ v → type x <= type t) ∧
       (vsize v <= SAFE_HEAP_SIZE →
        ∀ fuel, vsize v <= Z.of_nat fuel →
                ∃ q', remove_max fuel q g = Done (t, q')).
Proof.
  intros Hrun Hv Hne.
  pose proof (run_within_groups_ordered _ _ _ Hrun
                (groups_ordered_new _ _) g v Hv) as Hord.
  assert (1 <= vsize v) as Hpos.
  { destruct v; [done|]. rewrite vsize_cons. pose proof (vsize_nonneg v). lia. }
  destruct (vget_in_range v 0) as [t Ht]; [lia|].
  assert (RequestQueue.top q g = Done t) as Htop.
  { unfold RequestQueue.top. rewrite Hv. simpl. by apply vat_Done. }
  exists t. split_and!.
  - done.
  - rewrite ?vget_lookup in Ht. rewrite decide_True in Ht by lia.
    by apply list_elem_of_lookup_2 in Ht.
  - intros x Hx. by apply (heap_root_is_max v).
  - intros Hsize fuel Hfuel.
    destruct (pop_returns fuel q g v Hv Hne) as [q' Hq']; [lia|lia|].
    exists q'. unfold remove_max. rewrite Htop. simpl. by rewrite Hq'.
Qed.

Lemma top_is_maximum_witness :
  run_within (RequestQueue.new 10 2)
    [Push (mkRequest 0 1); Push (mkRequest 0 2); Push (mkRequest 0 3);
     Push (mkRequest 0 3); Pop 0]
    (RequestQueue.mk 10 3
       [[mkRequest 0 3; mkRequest 0 1; mkRequest 0 2]; []]) ∧
  [mkRequest 0 3; mkRequest 0 1; mkRequest 0 2] ≠ [] ∧
  ∃ t, RequestQueue.top
         (RequestQueue.mk 10 3
            [[mkRequest 0 3; mkRequest 0 1; mkRequest 0 2]; []]) 0
       = Done t ∧
       t ∈ [mkRequest 0 3; mkRequest 0 1; mkRequest 0 2] ∧
       (∀ x, x ∈ [mkRequest 0 3; mkRequest 0 1; mkRequest 0 2] →
             type x <= type t) ∧
       (vsize [mkRequest 0 3; mkRequest 0 1; mkRequest 0 2]
          <= SAFE_HEAP_SIZE →
        ∀ fuel,
          vsize [mkRequest 0 3; mkRequest 0 1; mkRequest 0 2]
            <= Z.of_nat fuel →
          ∃ q', remove_max fuel
                  (RequestQueue.mk 10 3
                     [[mkRequest 0 3; mkRequest 0 1; mkRequest 0 2]; []]) 0
                = Done (t, q')).
Proof.
  assert ([mkRequest 0 3; mkRequest 0 1; mkRequest 0 2] ≠ []) as Hne
    by discriminate.
  split; [exact run_within_example|]. split; [exact Hne|].
  exact (top_is_maximum 10 2 _ _ 0 _ run_within_example eq_refl Hne).
Defined.

(** X17. After any sequence of pushes and pops on a new queue, each one
    returning (so that no pop is applied to an empty group), in which
    every push is applied to a vector of fewer than 2^32 elements and
    every pop to a vector of at most 2^31, whatever the capacity and the
    other vectors, the vector of every group is a max-heap: each element
    is at least as large as its children at positions [2 * i + 1] and
    [2 * i + 2]. *)
Theorem heap_invariant capacity numOfGroups ops q' g v :
  run_within (RequestQueue.new capacity numOfGroups) ops q' →
  RequestQueue.group q' g = Done v →
  max_heap v.
Proof.
  intros Hrun Hv. apply heap_ordered_max_heap.
  apply (run_within_groups_ordered _ _ _ Hrun (groups_ordered_new _ _) g v Hv).
Qed.

Lemma heap_invariant_witness :
  run_within (RequestQueue.new 10 2)
    [Push (mkRequest 0 1); Push (mkRequest 0 2); Push (mkRequest 0 3);
     Push (mkRequest 0 3); Pop 0]
    (RequestQueue.mk 10 3
       [[mkRequest 0 3; mkRequest 0 1; mkRequest 0 2]; []]) ∧
  max_heap [mkRequest 0 3; mkRequest 0 1; mkRequest 0 2].
Proof.
  split; [exact run_within_example|].
  exact (heap_invariant 10 2 _ _ 0 _ run_within_example eq_refl).
Defined.

(** X18. [heapifyUp] terminates on every vector and every starting index:
    each recursive call is made with a smaller index, and a recursion
    depth of [index + 1] is never exceeded.  [heapifyDown] terminates on
    every vector of fewer than 2^31 elements and every starting index:
    each recursive call is made with a larger index that lies within the
    vector, and a recursion depth of [size - index + 1] (of 1 when the
    index is beyond the size) is never exceeded. *)
Theorem sift_terminates (v : list Request) (index : Z) (fuel : nat) :
  is_uint index →
  ((index < Z.of_nat fuel → heapifyUp fuel v index ≠ OutOfFuel) ∧
   (heapifyUp (S fuel) v index = Done v ∨
    heapifyUp (S fuel) v index = Undefined ∨
    ∃ v' parent, 0 <= parent < index ∧ vsize v' = vsize v ∧
                 heapifyUp (S fuel) v index = heapifyUp fuel v' parent)) ∧
  (vsize v < SAFE_HEAP_SIZE →
   (Z.max 0 (vsize v - index) < Z.of_nat fuel →
    heapifyDown fuel v index ≠ OutOfFuel) ∧
   (heapifyDown (S fuel) v index = Done v ∨
    heapifyDown (S fuel) v index = Undefined ∨
    ∃ v' large, index < large < vsize v ∧ vsize v' = vsize v ∧
                heapifyDown (S fuel) v index = heapifyDown fuel v' large)).
Proof.
  intros Hi. split_and!.
  - intros Hf. apply heapifyUp_not_OutOfFuel; [done|].
    unfold is_uint in Hi. lia.
  - by apply heapifyUp_call.
  - intros Hs. split.
    + intros Hf. apply heapifyDown_not_OutOfFuel; [done|done|lia].
    + by apply heapifyDown_call.
Qed.

(** From position 1 of this vector both procedures swap and call
    themselves: the sift-up with the root, the sift-down with position
    3. *)
Lemma sift_terminates_witness :
  is_uint 1 ∧
  1 < Z.of_nat 4 ∧
  heapifyUp 4 [mkRequest 0 1; mkRequest 0 2; mkRequest 0 1; mkRequest 0 3] 1
    ≠ OutOfFuel ∧
  heapifyUp 4 [mkRequest 0 1; mkRequest 0 2; mkRequest 0 1; mkRequest 0 3] 1
    = heapifyUp 3
        [mkRequest 0 2; mkRequest 0 1; mkRequest 0 1; mkRequest 0 3] 0 ∧
  vsize [mkRequest 0 1; mkRequest 0 2; mkRequest 0 1; mkRequest 0 3]
    < SAFE_HEAP_SIZE ∧
  Z.max 0 (vsize [mkRequest 0 1; mkRequest 0 2; mkRequest 0 1; mkRequest 0 3]
           - 1) < Z.of_nat 4 ∧
  heapifyDown 4 [mkRequest 0 1; mkRequest 0 2; mkRequest 0 1; mkRequest 0 3] 1
    ≠ OutOfFuel ∧
  heapifyDown 4 [mkRequest 0 1; mkRequest 0 2; mkRequest 0 1; mkRequest 0 3] 1
    = heapifyDown 3
        [mkRequest 0 1; mkRequest 0 3; mkRequest 0 1; mkRequest 0 2] 3.
Proof.
  assert (is_uint 1) as H1 by (unfold is_uint, UINT_MODULUS; lia).
  assert (1 < Z.of_nat 4) as H2 by lia.
  assert (vsize [mkRequest 0 1; mkRequest 0 2; mkRequest 0 1; mkRequest 0 3]
          < SAFE_HEAP_SIZE) as H3
    by (unfold SAFE_HEAP_SIZE, vsize; simpl; lia).
  assert (Z.max 0 (vsize [mkRequest 0 1; mkRequest 0 2; mkRequest 0 1;
                          mkRequest 0 3] - 1) < Z.of_nat 4)
    as H4 by (unfold vsize; simpl; lia).
  destruct (sift_terminates
              [mkRequest 0 1; mkRequest 0 2; mkRequest 0 1; mkRequest 0 3]
              1 4 H1) as [[Hup _] Hdown].
  destruct (Hdown H3) as [Hdown' _].
  split; [exact H1|]. split; [exact H2|]. split; [exact (Hup H2)|].
  split; [reflexivity|]. split; [exact H3|]. split; [exact H4|].
  split; [exact (Hdown' H4)|reflexivity].
Defined.
